(** * react-movie: the favourites store and the browse view

    A shallow embedding of [src/contexts/MovieContext.jsx] (the favourites
    store with its [localStorage] mirror) and of [src/pages/Home.jsx] (the
    browse view: initial load, search submission, render-time filter),
    together with the platform functions the two files call:
    [String.prototype.trim], [toLowerCase] and [includes], [JSON.stringify],
    [JSON.parse] and [localStorage]. *)

From Stdlib Require Import ZArith NArith Ascii String List Lia Decimal DecimalString
  DecimalFacts DecimalPos DecimalZ.
From stdpp Require Import base decidable option list strings gmap.

Local Open Scope string_scope.
Local Open Scope list_scope.
Local Open Scope Z_scope.

(** ** Strings

    A JS string is a sequence of UTF-16 code units.  The model is Rocq's
    [string], whose characters are the code units U+0000 to U+00FF
    (ISO 8859-1); text with a code unit above U+00FF has no image here. *)
Module JS.

Definition charCode (c : ascii) : N := N_of_ascii c.

(** WhiteSpace and LineTerminator of ECMAScript, below U+0100: TAB, LF, VT,
    FF, CR, SP and NBSP. *)
Definition isWhiteSpace (c : ascii) : bool :=
  let n := charCode c in
  ((n =? 9) || (n =? 10) || (n =? 11) || (n =? 12) || (n =? 13)
   || (n =? 32) || (n =? 160))%N.

Fixpoint trimStart (s : string) : string :=
  match s with
  | EmptyString => EmptyString
  | String c rest => if isWhiteSpace c then trimStart rest else s
  end.

Fixpoint trimEnd (s : string) : string :=
  match s with
  | EmptyString => EmptyString
  | String c rest =>
      match trimEnd rest with
      | EmptyString => if isWhiteSpace c then EmptyString else String c EmptyString
      | kept => String c kept
      end
  end.

(** [s.trim()] *)
Definition trim (s : string) : string := trimEnd (trimStart s).

(** ToBoolean on a string: only the empty string is falsy. *)
Definition truthy (s : string) : bool :=
  match s with
  | EmptyString => false
  | String _ _ => true
  end.

(** Lower-case mapping of one code unit below U+0100: A-Z, and the capital
    letters U+00C0-U+00DE except the multiplication sign U+00D7, move up by
    32; every other code unit is its own lower case. *)
Definition toLowerCase_char (c : ascii) : ascii :=
  let n := charCode c in
  if (((65 <=? n) && (n <=? 90))
      || ((192 <=? n) && (n <=? 214))
      || ((216 <=? n) && (n <=? 222)))%N
  then ascii_of_N (n + 32)
  else c.

(** [s.toLowerCase()], for a string of code units below U+0100.  On such a
    string [String.prototype.toLowerCase] maps every code unit on its own
    and keeps the length.  On other text it does not: a capital sigma
    U+03A3 becomes U+03C2 at the end of a word and U+03C3 elsewhere, and
    U+0130 becomes two code units.  So no statement below rests on the
    function acting unit by unit: the properties of the view need only
    that the lower case of the empty string is empty and that lower-casing
    twice is lower-casing once, which hold of all text. *)
Fixpoint toLowerCase (s : string) : string :=
  match s with
  | EmptyString => EmptyString
  | String c rest => String (toLowerCase_char c) (toLowerCase rest)
  end.

(** [s.startsWith(searchString)] *)
Fixpoint startsWith (s searchString : string) {struct searchString} : bool :=
  match searchString with
  | EmptyString => true
  | String d searchString' =>
      match s with
      | EmptyString => false
      | String c s' => Ascii.eqb c d && startsWith s' searchString'
      end
  end.

(** [s.includes(searchString)]: [searchString] occurs at some position. *)
Fixpoint includes (s searchString : string) : bool :=
  startsWith s searchString
  || match s with
     | EmptyString => false
     | String _ s' => includes s' searchString
     end.

End JS.

(** ** JSON

    The JS values that JSON text denotes.  Numbers are the integers, the
    values the identifiers of the catalog take, each standing for itself
    (a JS number is a double, and is the integer written up to 2^53).  A
    number written with a fraction or an exponent is outside the model. *)
Module JSON.

Unset Elimination Schemes.
Inductive json :=
| JNull
| JBool (b : bool)
| JNumber (n : Z)
| JString (s : string)
| JArray (elements : list json)
| JObject (members : list (string * json)).
Set Elimination Schemes.

Definition quotation_mark : ascii := ascii_of_N 34.
Definition reverse_solidus : ascii := ascii_of_N 92.

Definition hex_digit (n : N) : ascii :=
  (if n <? 10 then ascii_of_N (48 + n) else ascii_of_N (87 + n))%N.

(** QuoteJSONString, one code unit: the two-character escapes, [\u00xx]
    for the other control characters, the code unit itself otherwise. *)
Definition escape_char (c : ascii) : string :=
  let n := JS.charCode c in
  (if n =? 8 then "\b"
   else if n =? 9 then "\t"
   else if n =? 10 then "\n"
   else if n =? 12 then "\f"
   else if n =? 13 then "\r"
   else if n =? 34 then String reverse_solidus (String quotation_mark "")
   else if n =? 92 then "\\"
   else if n <? 32 then
     "\u00" ++ String (hex_digit (n / 16)) (String (hex_digit (n mod 16)) "")
   else String c "")%N%string.

Fixpoint escape (s : string) : string :=
  match s with
  | EmptyString => EmptyString
  | String c rest => (escape_char c ++ escape rest)%string
  end.

Definition quote (s : string) : string :=
  String quotation_mark (escape s ++ String quotation_mark "")%string.

(** Number::toString on an integer: its decimal digits, after a minus sign
    when it is negative. *)
Definition number_to_string (n : Z) : string :=
  match Z.to_int n with
  | Decimal.Pos u => NilEmpty.string_of_uint u
  | Decimal.Neg u => String "-" (NilEmpty.string_of_uint u)
  end.

(** [JSON.stringify(value)], without indentation: array elements and
    object members in order, separated by commas. *)
Fixpoint stringify (value : json) : string :=
  match value with
  | JNull => "null"
  | JBool b => if b then "true" else "false"
  | JNumber n => number_to_string n
  | JString s => quote s
  | JArray elements =>
      "[" ++ String.concat "," (List.map stringify elements) ++ "]"
  | JObject members =>
      "{" ++ String.concat ","
               (List.map (λ member, quote (fst member) ++ ":" ++ stringify (snd member))
                         members)
          ++ "}"
  end%string.

(** What a call of the parser comes to: a value, the [SyntaxError] that
    [JSON.parse] throws, or text that is JSON of a kind the model has no
    value for (see [parse]). *)
Inductive parsed (A : Type) :=
| Value (a : A)
| SyntaxError
| Unmodelled.
Arguments Value {A} a.
Arguments SyntaxError {A}.
Arguments Unmodelled {A}.

#[global] Instance parsed_bind : MBind parsed := λ A B f m,
  match m with
  | Value a => f a
  | SyntaxError => SyntaxError
  | Unmodelled => Unmodelled
  end.

(** JSON white space: TAB, LF, CR and SP. *)
Definition is_ws (c : ascii) : bool :=
  let n := JS.charCode c in ((n =? 9) || (n =? 10) || (n =? 13) || (n =? 32))%N.

Fixpoint skip_ws (s : string) : string :=
  match s with
  | EmptyString => EmptyString
  | String c rest => if is_ws c then skip_ws rest else s
  end.

Definition is_digit (c : ascii) : bool :=
  let n := JS.charCode c in ((48 <=? n) && (n <=? 57))%N.

Definition cons_digit (c : ascii) (u : uint) : uint :=
  match (JS.charCode c - 48)%N with
  | 0 => D0 u | 1 => D1 u | 2 => D2 u | 3 => D3 u | 4 => D4 u
  | 5 => D5 u | 6 => D6 u | 7 => D7 u | 8 => D8 u | _ => D9 u
  end%N.

(** The longest run of decimal digits at the head of [s]. *)
Fixpoint read_digits (s : string) : uint * string :=
  match s with
  | EmptyString => (Nil, EmptyString)
  | String c rest =>
      if is_digit c
      then let '(u, rest') := read_digits rest in (cons_digit c u, rest')
      else (Nil, s)
  end.

(** A zero followed by further digits. *)
Definition leading_zero (u : uint) : bool :=
  match u with
  | D0 Nil => false
  | D0 _ => true
  | _ => false
  end.

Definition starts_fraction_or_exponent (s : string) : bool :=
  match s with
  | EmptyString => false
  | String c _ => Ascii.eqb c "." || Ascii.eqb c "e" || Ascii.eqb c "E"
  end.

(** A JSON number: an optional minus sign, then either a single zero or
    digits that do not begin with zero.  With a fraction or an exponent
    the number is outside the model. *)
Definition parse_number (s : string) : parsed (json * string) :=
  let '(negative, s') :=
    match s with
    | String c rest => if Ascii.eqb c "-" then (true, rest) else (false, s)
    | EmptyString => (false, s)
    end in
  let '(u, rest) := read_digits s' in
  match u with
  | Nil => SyntaxError
  | _ =>
      if leading_zero u then SyntaxError
      else if starts_fraction_or_exponent rest then Unmodelled
      else Value (JNumber (Z.of_int (if negative then Decimal.Neg u else Decimal.Pos u)),
                  rest)
  end.

Definition hex_value (c : ascii) : option N :=
  let n := JS.charCode c in
  (if (48 <=? n) && (n <=? 57) then Some (n - 48)
   else if (97 <=? n) && (n <=? 102) then Some (n - 87)
   else if (65 <=? n) && (n <=? 70) then Some (n - 55)
   else None)%N.

Definition hex4 (h1 h2 h3 h4 : ascii) : option N :=
  a ← hex_value h1; b ← hex_value h2; c ← hex_value h3; d ← hex_value h4;
  Some (((a * 16 + b) * 16 + c) * 16 + d)%N.

(** The character an escape letter stands for. *)
Definition simple_escape (e : ascii) : option ascii :=
  let n := JS.charCode e in
  (if n =? 34 then Some quotation_mark
   else if n =? 92 then Some reverse_solidus
   else if n =? 47 then Some "/"%char
   else if n =? 98 then Some (ascii_of_N 8)
   else if n =? 102 then Some (ascii_of_N 12)
   else if n =? 110 then Some (ascii_of_N 10)
   else if n =? 114 then Some (ascii_of_N 13)
   else if n =? 116 then Some (ascii_of_N 9)
   else None)%N.

Definition push (c : ascii) (r : parsed (string * string)) : parsed (string * string) :=
  '(str, rest) ← r; Value (String c str, rest).

(** The characters of a JSON string after its opening quotation mark, up
    to and including the closing one.  A [\u] escape above U+00FF is
    outside the model. *)
Fixpoint parse_chars (s : string) : parsed (string * string) :=
  match s with
  | EmptyString => SyntaxError
  | String c rest =>
      if Ascii.eqb c quotation_mark then Value (EmptyString, rest)
      else if Ascii.eqb c reverse_solidus then
        match rest with
        | EmptyString => SyntaxError
        | String e rest1 =>
            match simple_escape e with
            | Some c' => push c' (parse_chars rest1)
            | None =>
                if Ascii.eqb e "u" then
                  match rest1 with
                  | String h1 (String h2 (String h3 (String h4 rest2))) =>
                      match hex4 h1 h2 h3 h4 with
                      | Some n =>
                          if (n <? 256)%N
                          then push (ascii_of_N n) (parse_chars rest2)
                          else Unmodelled
                      | None => SyntaxError
                      end
                  | _ => SyntaxError
                  end
                else SyntaxError
            end
        end
      else if (JS.charCode c <? 32)%N then SyntaxError
      else push c (parse_chars rest)
  end.

(** [after_prefix word s]: what follows [word] at the head of [s]. *)
Fixpoint after_prefix (word s : string) {struct word} : option string :=
  match word with
  | EmptyString => Some s
  | String d word' =>
      match s with
      | EmptyString => None
      | String c s' => if Ascii.eqb c d then after_prefix word' s' else None
      end
  end.

(** The rest of a literal name ([null], [true], [false]) after its first
    letter. *)
Definition expect (word : string) (s : string) (v : json) : parsed (json * string) :=
  match after_prefix word s with
  | Some rest => Value (v, rest)
  | None => SyntaxError
  end.

(** CreateDataProperty on the object under construction: a key seen before
    keeps its place and takes the new value, a new key goes last. *)
Fixpoint obj_set (key : string) (v : json) (members : list (string * json))
  : list (string * json) :=
  match members with
  | [] => [(key, v)]
  | (k, w) :: members' =>
      if String.eqb k key then (k, v) :: members'
      else (k, w) :: obj_set key v members'
  end.

Fixpoint all_digits (s : string) : bool :=
  match s with
  | EmptyString => true
  | String c rest => is_digit c && all_digits rest
  end.

(** Keys made of digits only.  Those among them that are array indices are
    enumerated by JS before the other keys whatever the order of the text,
    so an object with such a key is outside the model. *)
Definition index_like (key : string) : bool := JS.truthy key && all_digits key.

(** The recursive descent.  [fuel] bounds the nesting and the number of
    elements; [parse] gives more than the text can use. *)
Fixpoint parse_value (fuel : nat) (s : string) {struct fuel} : parsed (json * string) :=
  match fuel with
  | O => Unmodelled
  | S fuel =>
      match skip_ws s with
      | EmptyString => SyntaxError
      | String c rest =>
          if Ascii.eqb c "n" then expect "ull" rest JNull
          else if Ascii.eqb c "t" then expect "rue" rest (JBool true)
          else if Ascii.eqb c "f" then expect "alse" rest (JBool false)
          else if Ascii.eqb c quotation_mark then
            '(str, rest') ← parse_chars rest; Value (JString str, rest')
          else if Ascii.eqb c "-" || is_digit c then parse_number (String c rest)
          else if Ascii.eqb c "[" then
            match skip_ws rest with
            | EmptyString => SyntaxError
            | String c' rest' =>
                if Ascii.eqb c' "]" then Value (JArray [], rest')
                else parse_elements fuel [] rest
            end
          else if Ascii.eqb c "{" then
            match skip_ws rest with
            | EmptyString => SyntaxError
            | String c' rest' =>
                if Ascii.eqb c' "}" then Value (JObject [], rest')
                else parse_members fuel [] rest
            end
          else SyntaxError
      end
  end
with parse_elements (fuel : nat) (acc : list json) (s : string) {struct fuel}
  : parsed (json * string) :=
  match fuel with
  | O => Unmodelled
  | S fuel =>
      '(v, rest) ← parse_value fuel s;
      match skip_ws rest with
      | EmptyString => SyntaxError
      | String c rest' =>
          if Ascii.eqb c "," then parse_elements fuel (acc ++ [v]) rest'
          else if Ascii.eqb c "]" then Value (JArray (acc ++ [v]), rest')
          else SyntaxError
      end
  end
with parse_members (fuel : nat) (acc : list (string * json)) (s : string) {struct fuel}
  : parsed (json * string) :=
  match fuel with
  | O => Unmodelled
  | S fuel =>
      match skip_ws s with
      | EmptyString => SyntaxError
      | String c rest =>
          if Ascii.eqb c quotation_mark then
            '(key, rest1) ← parse_chars rest;
            match skip_ws rest1 with
            | EmptyString => SyntaxError
            | String c1 rest2 =>
                if Ascii.eqb c1 ":" then
                  '(v, rest3) ← parse_value fuel rest2;
                  if index_like key then Unmodelled
                  else
                    match skip_ws rest3 with
                    | EmptyString => SyntaxError
                    | String c3 rest4 =>
                        if Ascii.eqb c3 "," then
                          parse_members fuel (obj_set key v acc) rest4
                        else if Ascii.eqb c3 "}" then
                          Value (JObject (obj_set key v acc), rest4)
                        else SyntaxError
                    end
                else SyntaxError
            end
          else SyntaxError
      end
  end.

(** [JSON.parse(text)]: one value, with nothing but white space after it. *)
Definition parse (text : string) : parsed json :=
  '(v, rest) ← parse_value (S (String.length text)) text;
  match skip_ws rest with
  | EmptyString => Value v
  | String _ _ => SyntaxError
  end.

(** *** Notions used to state what the parser reads back *)

(** One member of an object as [stringify] prints it. *)
Definition print_member (member : string * json) : string :=
  (quote (fst member) ++ ":" ++ stringify (snd member))%string.

(** Text that does not go on with a digit, a fraction or an exponent. *)
Definition ends_number (rest : string) : bool :=
  match rest with
  | EmptyString => true
  | String c _ => negb (is_digit c) && negb (starts_fraction_or_exponent rest)
  end.

(** The first character of a printed value: no white space, no closing
    bracket, and for a number a digit or the minus sign. *)
Inductive opens_value (v : json) (c : ascii) : Prop :=
| opens_null : v = JNull → c = "n"%char → opens_value v c
| opens_true : v = JBool true → c = "t"%char → opens_value v c
| opens_false : v = JBool false → c = "f"%char → opens_value v c
| opens_number n :
    v = JNumber n → Ascii.eqb c "-" || is_digit c = true → opens_value v c
| opens_string s : v = JString s → c = quotation_mark → opens_value v c
| opens_array l : v = JArray l → c = "["%char → opens_value v c
| opens_object ms : v = JObject ms → c = "{"%char → opens_value v c.

(** Values whose objects have pairwise distinct keys, none of them made
    of digits only: the objects [JSON.parse] builds in the model. *)
Fixpoint canonical (v : json) : bool :=
  match v with
  | JArray elements => forallb canonical elements
  | JObject members =>
      bool_decide (NoDup (List.map fst members))
      && forallb (λ member, negb (index_like (fst member)) && canonical (snd member))
                 members
  | _ => true
  end.

(** Text that ends, or goes on with a comma or a closing bracket. *)
Definition delimited (rest : string) : bool :=
  match rest with
  | EmptyString => true
  | String c _ => Ascii.eqb c "," || Ascii.eqb c "]" || Ascii.eqb c "}"
  end.

(** What the induction carries for one value. *)
Definition reads_back (v : json) : Prop :=
  canonical v = true →
  ∀ fuel rest,
    (String.length (stringify v) ≤ fuel)%nat → delimited rest = true →
    parse_value fuel (stringify v ++ rest) = Value (v, rest).

(** JSON text is full of quotation marks; the examples write an apostrophe
    for each. *)
Fixpoint with_quotation_marks (s : string) : string :=
  match s with
  | EmptyString => EmptyString
  | String c rest =>
      String (if Ascii.eqb c "'" then quotation_mark else c) (with_quotation_marks rest)
  end.

End JSON.

(** ** Data model *)

(** A movie: the two properties the components read, [movie.id]
    (MovieContext.jsx) and [movie.title] (Home.jsx), and the poster path
    the catalog sends along, which is [null] when a movie has no poster.
    No property of a movie is ever written. *)
Record Movie := mkMovie {
  id : Z;
  title : string;
  poster_path : option string
}.

#[global] Instance Movie_eq_dec : EqDecision Movie.
Proof. solve_decision. Defined.

(** Two movies for the examples. *)
Definition dune : Movie := mkMovie 1 "Dune" None.
Definition arrival : Movie := mkMovie 2 "Arrival" (Some "/arrival.jpg").

(** The JS object a movie is, and the JS array a list of movies is. *)
Definition movie_to_json (movie : Movie) : JSON.json :=
  JSON.JObject
    [("id", JSON.JNumber (id movie));
     ("title", JSON.JString (title movie));
     ("poster_path",
      match poster_path movie with
      | Some path => JSON.JString path
      | None => JSON.JNull
      end)].

Definition movies_to_json (l : list Movie) : JSON.json :=
  JSON.JArray (movie_to_json <$> l).

(** Reading a JS value back as a movie, when it is an object of that
    shape, and as a list of movies. *)
Definition movie_of_json (v : JSON.json) : option Movie :=
  match v with
  | JSON.JObject [(k1, JSON.JNumber i); (k2, JSON.JString t); (k3, p)] =>
      if String.eqb k1 "id" && String.eqb k2 "title" && String.eqb k3 "poster_path"
      then match p with
           | JSON.JString path => Some (mkMovie i t (Some path))
           | JSON.JNull => Some (mkMovie i t None)
           | _ => None
           end
      else None
  | _ => None
  end.

Definition movies_of_json (v : JSON.json) : option (list Movie) :=
  match v with
  | JSON.JArray elements => mapM movie_of_json elements
  | _ => None
  end.

(** ** The durable storage: [window.localStorage], a map from keys to
    strings. *)
Module localStorage.

(** [localStorage.getItem(key)]; [None] is JS [null]. *)
Definition getItem (key : string) (storage : gmap string string) : option string :=
  storage !! key.

(** [localStorage.setItem(key, value)] *)
Definition setItem (key value : string) (storage : gmap string string)
  : gmap string string :=
  <[key := value]> storage.

End localStorage.

(** ** MovieContext.jsx: the favourites store *)
Module MovieContext.

(** The state the provider owns, [const [favourites, setFavourites] =
    useState([])], and the storage its effects read and write. *)
Record Provider := mkProvider {
  favourites : list Movie;
  storage : gmap string string
}.

(** The second effect, [localStorage.setItem("favourites",
    JSON.stringify(favourites))]. *)
Definition persist_effect (p : Provider) : Provider :=
  {| favourites := favourites p;
     storage := localStorage.setItem "favourites"
                  (JSON.stringify (movies_to_json (favourites p))) (storage p) |}.

(** [setFavourites(updater)]: the state takes the array the updater makes
    from the previous one.  Both updaters of this file build a new array
    ([[...prev, movie]], [prev.filter(...)]), so the dependency
    [[favourites]] of the second effect has changed and the effect runs
    after the render that follows. *)
Definition setFavourites (updater : list Movie → list Movie) (p : Provider) : Provider :=
  persist_effect {| favourites := updater (favourites p); storage := storage p |}.

(** [setFavourites((prev) => [...prev, movie])] *)
Definition addToFavourites (movie : Movie) : Provider → Provider :=
  setFavourites (λ prev, prev ++ [movie]).

(** [setFavourites((prev) => prev.filter((movie) => movie.id !== movieId))] *)
Definition removeFromFavourites (movieId : Z) : Provider → Provider :=
  setFavourites (λ prev, filter (λ movie, id movie ≠ movieId) prev).

(** [favourites.some((movie) => movie.id === movieId)] *)
Definition isFavourites (p : Provider) (movieId : Z) : bool :=
  existsb (λ movie, bool_decide (id movie = movieId)) (favourites p).

(** What mounting the provider comes to. *)
Inductive mounted :=
| Ready (p : Provider)
    (** [favourites] is an array of movies *)
| Adopted (v : JSON.json) (storage : gmap string string)
    (** [favourites] is [v], which [JSON.parse] returned and which is no
        array of movies *)
| Throws
    (** [JSON.parse] threw its [SyntaxError] out of the first effect *)
| NotModelled.
    (** the stored text is outside the model of [JSON.parse] *)

(** The first effect: [const storedFavs = localStorage.getItem("favourites");
    if (storedFavs) setFavourites(JSON.parse(storedFavs));].  The result is
    the value handed to [setFavourites], if the call is made. *)
Definition init_effect (storage : gmap string string) : JSON.parsed (option JSON.json) :=
  match localStorage.getItem "favourites" storage with
  | None => JSON.Value None
  | Some storedFavs =>
      if JS.truthy storedFavs
      then v ← JSON.parse storedFavs; JSON.Value (Some v)
      else JSON.Value None
  end.

(** Mounting.  The first render has [favourites = []]; both effects run
    after it, in order, the second one writing that empty array.  When the
    first effect has set the state the component renders again and the
    second effect writes the new value. *)
Definition mount (storage : gmap string string) : mounted :=
  match init_effect storage with
  | JSON.Value None =>
      Ready (persist_effect {| favourites := []; storage := storage |})
  | JSON.Value (Some v) =>
      let first := persist_effect {| favourites := []; storage := storage |} in
      match movies_of_json v with
      | Some favs =>
          Ready (persist_effect {| favourites := favs; storage := MovieContext.storage first |})
      | None =>
          Adopted v (localStorage.setItem "favourites" (JSON.stringify v)
                       (MovieContext.storage first))
      end
  | JSON.SyntaxError => Throws
  | JSON.Unmodelled => NotModelled
  end.

(** The calls a consumer of the context makes on the store. *)
Inductive op :=
| Add (movie : Movie)
| Remove (movieId : Z).

Definition apply_op (p : Provider) (o : op) : Provider :=
  match o with
  | Add movie => addToFavourites movie p
  | Remove movieId => removeFromFavourites movieId p
  end.

(** A sequence of calls, oldest first. *)
Definition run_from (p : Provider) (ops : list op) : Provider :=
  foldl apply_op p ops.

(** The provider as [useState([])] makes it, over any storage. *)
Definition empty (storage : gmap string string) : Provider :=
  {| favourites := []; storage := storage |}.

(** The identifiers held by the array, in order, with repetitions. *)
Definition ids (p : Provider) : list Z := id <$> favourites p.

(** Does the call [o] touch the membership of identifier [i]? *)
Definition affects (i : Z) (o : op) : Prop :=
  match o with
  | Add movie => id movie = i
  | Remove movieId => movieId = i
  end.

#[global] Instance affects_dec i o : Decision (affects i o).
Proof. destruct o; simpl; apply _. Defined.

(** The last call of the sequence that touches [i], if any. *)
Definition last_affecting (i : Z) (ops : list op) : option op :=
  last (filter (affects i) ops).

Definition last_was_add (i : Z) (ops : list op) : bool :=
  match last_affecting i ops with
  | Some (Add _) => true
  | _ => false
  end.

(** A sequence in which every [Add] is issued only while [isFavourites]
    answers [false] for the movie's identifier: the discipline of a
    caller that toggles on [isFavourites(movie.id)]. *)
Fixpoint guarded_from (p : Provider) (ops : list op) : bool :=
  match ops with
  | [] => true
  | Add movie :: rest =>
      negb (isFavourites p (id movie)) && guarded_from (addToFavourites movie p) rest
  | Remove movieId :: rest =>
      guarded_from (removeFromFavourites movieId p) rest
  end.

End MovieContext.

(** ** Home.jsx: the browse view *)
Module Home.

(** The four [useState] cells of the component. *)
Record state := mkState {
  searchQuery : string;
  movies : list Movie;
  error : option string;
  loading : bool
}.

(** [useState("")], [useState([])], [useState(null)], [useState(true)] *)
Definition initial : state :=
  {| searchQuery := ""; movies := []; error := None; loading := true |}.

Definition setSearchQuery (v : string) (st : state) : state :=
  {| searchQuery := v; movies := movies st; error := error st; loading := loading st |}.
Definition setMovies (v : list Movie) (st : state) : state :=
  {| searchQuery := searchQuery st; movies := v; error := error st; loading := loading st |}.
Definition setError (v : option string) (st : state) : state :=
  {| searchQuery := searchQuery st; movies := movies st; error := v; loading := loading st |}.
Definition setLoading (v : bool) (st : state) : state :=
  {| searchQuery := searchQuery st; movies := movies st; error := error st; loading := v |}.

(** The two calls of [services/api]. *)
Inductive request :=
| getPopularMovies
| searchMovies (query : string).

(** How an awaited call settles; the reason of a rejection is only logged
    to the console. *)
Inductive settled :=
| Resolved (result : list Movie)
| Rejected (err : string).

(** An [async] function of the component, run up to its [await]: either
    it has returned, or it has issued a call and holds the code that runs
    when the call settles.  That code only calls state setters, so it is a
    function of the state it finds then. *)
Inductive async :=
| Returned (st : state)
| Await (st : state) (call : request) (resume : settled → state → state).

(** [loadPopularMovies], called once by the mount effect. *)
Definition loadPopularMovies (st : state) : async :=
  Await st getPopularMovies
    (λ outcome now,
       let after :=
         match outcome with
         | Resolved popularMovies => setMovies popularMovies now
         | Rejected err => setError (Some "Failed to load movies...") now
         end in
       setLoading false after).

(** [handleSearch], the submit handler of the search form.  Its first
    statement, [e.preventDefault()], acts on the event and on no state of
    the component; [console.log(err)] in the handlers writes to the
    console only.  [searchQuery] and [loading] are the values of the render
    the handler belongs to. *)
Definition handleSearch (st : state) : async :=
  if negb (JS.truthy (JS.trim (searchQuery st))) then Returned st
  else if loading st then Returned st
  else
    Await (setLoading true st) (searchMovies (searchQuery st))
      (λ outcome now,
         let after :=
           match outcome with
           | Resolved searchResults => setError None (setMovies searchResults now)
           | Rejected err => setError (Some "Failed to search Movies...") now
           end in
         setLoading false after).

(** The state a handler leaves when it returns or suspends, the call it
    has issued, and the state once that call has settled. *)
Definition state_of (a : async) : state :=
  match a with
  | Returned st => st
  | Await st _ _ => st
  end.

Definition call_of (a : async) : option request :=
  match a with
  | Returned _ => None
  | Await _ call _ => Some call
  end.

Definition settle (a : async) (outcome : settled) (now : state) : state :=
  match a with
  | Returned _ => now
  | Await _ _ resume => resume outcome now
  end.

(** What the component shows under the search form. *)
Inductive body :=
| Loading
| MoviesGrid (cards : list Movie).

Record view := mkView {
  error_message : option string;
  content : body
}.

(** The [return] of the component.  In the grid, [movies.map] yields a
    card for a movie whose lower-cased title includes the lower-cased
    query and [false] otherwise, which renders as nothing. *)
Definition render (st : state) : view :=
  {| error_message := error st;
     content :=
       if loading st then Loading
       else MoviesGrid
              (omap (λ movie,
                       if JS.includes (JS.toLowerCase (title movie))
                                      (JS.toLowerCase (searchQuery st))
                       then Some movie else None)
                    (movies st)) |}.

(** The movies on display. *)
Definition displayed (st : state) : list Movie :=
  match content (render st) with
  | Loading => []
  | MoviesGrid cards => cards
  end.

(** [query] occurs in [text] up to the case of letters: some stretch of
    [text] has the lower case of [query]. *)
Definition occurs_ignoring_case (query text : string) : Prop :=
  ∃ before stretch after : string,
    text = (before ++ stretch ++ after)%string
    ∧ JS.toLowerCase stretch = JS.toLowerCase query.

(** The lower case of [query] occurs in the lower case of [text]: what
    [text.toLowerCase().includes(query.toLowerCase())] tests, said of
    positions.  Both strings are lower-cased as wholes. *)
Definition occurs_lowered (query text : string) : Prop :=
  ∃ before after : string,
    JS.toLowerCase text = (before ++ JS.toLowerCase query ++ after)%string.

(** Text that is empty or white space only. *)
Definition blank (s : string) : Prop :=
  Forall (λ c, JS.isWhiteSpace c = true) (list_ascii_of_string s).

End Home.

(** ** Home.jsx over the life of the component

    The events the mounted component meets, one at a time: the user types
    in the search box ([onChange], [setSearchQuery(e.target.value)]), the
    form is submitted ([onSubmit], [handleSearch]), a call that was issued
    settles.  Each event finds the state the one before it left. *)
Module Session.
Import Home.

(** The state of the component and the calls that have been issued and
    have not settled, oldest first, each with the code that waits for it. *)
Record session := mkSession {
  ui : state;
  in_flight : list (request * (settled → state → state))
}.

Inductive event :=
| Typed (text : string)
| Submitted
| CallSettles (n : nat) (outcome : settled).

(** The call an [async] function waits for, if it has not returned. *)
Definition pending (a : async) : list (request * (settled → state → state)) :=
  match a with
  | Returned _ => []
  | Await _ call resume => [(call, resume)]
  end.

(** [useEffect(() => { ...; loadPopularMovies(); }, [])]: after the first
    render the popular movies are on their way. *)
Definition mounted : session :=
  {| ui := state_of (loadPopularMovies initial);
     in_flight := pending (loadPopularMovies initial) |}.

(** One event.  [CallSettles n outcome] settles the [n]-th call in flight
    and is nothing when there is no such call. *)
Definition step (s : session) (e : event) : session :=
  match e with
  | Typed text => {| ui := setSearchQuery text (ui s); in_flight := in_flight s |}
  | Submitted =>
      {| ui := state_of (handleSearch (ui s));
         in_flight := in_flight s ++ pending (handleSearch (ui s)) |}
  | CallSettles n outcome =>
      match in_flight s !! n with
      | Some (_, resume) =>
          {| ui := resume outcome (ui s); in_flight := delete n (in_flight s) |}
      | None => s
      end
  end.

(** The component after a sequence of events, oldest first. *)
Definition after (events : list event) : session := foldl step mounted events.

(** The three values the [error] cell is ever given. *)
Definition known_error (e : option string) : Prop :=
  e = None
  ∨ e = Some "Failed to load movies..."
  ∨ e = Some "Failed to search Movies...".

(** The text of the typing events, oldest first. *)
Definition typed_texts (events : list event) : list string :=
  omap (λ e, match e with Typed text => Some text | _ => None end) events.

Definition is_settle (e : event) : Prop :=
  match e with
  | CallSettles _ _ => True
  | _ => False
  end.

(** Code waiting for a call that, whenever it runs, ends with the loading
    flag false, leaves the query alone, gives [error] one of its three
    values, and either leaves the result list alone or puts the result of
    the call in its place. *)
Definition settles_well (resume : settled → state → state) : Prop :=
  ∀ outcome now,
    loading (resume outcome now) = false
    ∧ searchQuery (resume outcome now) = searchQuery now
    ∧ (known_error (error now) → known_error (error (resume outcome now)))
    ∧ (movies (resume outcome now) = movies now
       ∨ ∃ result, outcome = Resolved result ∧ movies (resume outcome now) = result).

(** What every event preserves: no call in flight and the loading flag
    false, or one call in flight and the loading flag true. *)
Definition coherent (s : session) : Prop :=
  known_error (error (ui s))
  ∧ ((in_flight s = [] ∧ loading (ui s) = false)
     ∨ ∃ call resume,
         in_flight s = [(call, resume)] ∧ loading (ui s) = true ∧ settles_well resume).

End Session.

(** * Properties *)

(** ** The definitions at work *)
Section examples.
Import JSON MovieContext Home.

Example trim_spaces : JS.trim "  Dune  2 " = "Dune  2".
Proof. reflexivity. Qed.

Example trim_only_spaces : JS.trim "   " = "".
Proof. reflexivity. Qed.

Example toLowerCase_title : JS.toLowerCase "The LEGO Movie 2" = "the lego movie 2".
Proof. reflexivity. Qed.

Example includes_inside : JS.includes "arrival" "riv" = true.
Proof. reflexivity. Qed.

Example includes_empty : JS.includes "arrival" "" = true.
Proof. reflexivity. Qed.

Example includes_missing : JS.includes "arrival" "dun" = false.
Proof. reflexivity. Qed.

Example stringify_favourites :
  stringify (movies_to_json [dune; arrival])
  = with_quotation_marks
      "[{'id':1,'title':'Dune','poster_path':null},{'id':2,'title':'Arrival','poster_path':'/arrival.jpg'}]".
Proof. reflexivity. Qed.

Example stringify_escapes :
  stringify (JString (String (ascii_of_N 9) (with_quotation_marks "a'b\c")))
  = with_quotation_marks "'\ta\'b\\c'".
Proof. reflexivity. Qed.

Example parse_with_spaces :
  parse (with_quotation_marks " [ { 'id' : 1 , 'title' : 'Dune', 'poster_path' : null } ] ")
  = Value (movies_to_json [dune]).
Proof. reflexivity. Qed.

Example parse_unicode_escape :
  parse (with_quotation_marks "'\u0044un\u0065'") = Value (JString "Dune").
Proof. reflexivity. Qed.

Example parse_repeated_key :
  parse (with_quotation_marks "{'a':1,'b':2,'a':3}")
  = Value (JObject [("a", JNumber 3); ("b", JNumber 2)]).
Proof. reflexivity. Qed.

Example parse_trailing_comma : parse "[1,]" = SyntaxError.
Proof. reflexivity. Qed.

Example parse_leading_zero : parse "01" = SyntaxError.
Proof. reflexivity. Qed.

Example parse_empty_text : parse "" = SyntaxError.
Proof. reflexivity. Qed.

Example parse_fraction : parse "1.5" = Unmodelled.
Proof. reflexivity. Qed.

(** The scenario of the specification: the popular movies arrive, the user
    types "dun", and marks Dune as a favourite. *)
Example browse_then_refine :
  let loaded := settle (loadPopularMovies initial) (Resolved [dune; arrival]) initial in
  displayed loaded = [dune; arrival]
  ∧ displayed (setSearchQuery "dun" loaded) = [dune].
Proof. split; reflexivity. Qed.

Example favourite_dune :
  match mount ∅ with
  | Ready p =>
      favourites (addToFavourites dune p) = [dune]
      ∧ localStorage.getItem "favourites" (storage (addToFavourites dune p))
        = Some (with_quotation_marks "[{'id':1,'title':'Dune','poster_path':null}]")
  | _ => False
  end.
Proof. split; reflexivity. Qed.

Example search_without_results :
  let st := mkState "zz" [dune; arrival] None false in
  call_of (handleSearch st) = Some (searchMovies "zz")
  ∧ loading (state_of (handleSearch st)) = true
  ∧ settle (handleSearch st) (Resolved []) (state_of (handleSearch st))
    = mkState "zz" [] None false.
Proof. split_and!; reflexivity. Qed.

Example search_rejected :
  let st := mkState "zz" [dune; arrival] None false in
  settle (handleSearch st) (Rejected "network") (state_of (handleSearch st))
  = mkState "zz" [dune; arrival] (Some "Failed to search Movies...") false.
Proof. reflexivity. Qed.

End examples.

(** ** The favourites store *)
Section store_facts.
Import MovieContext.

Lemma favourites_add movie p :
  favourites (addToFavourites movie p) = favourites p ++ [movie].
Proof. reflexivity. Qed.

Lemma favourites_remove movieId p :
  favourites (removeFromFavourites movieId p)
  = filter (λ movie, id movie ≠ movieId) (favourites p).
Proof. reflexivity. Qed.

Lemma isFavourites_spec p movieId :
  isFavourites p movieId = true ↔ movieId ∈ ids p.
Proof.
  unfold isFavourites, ids. rewrite existsb_exists, list_elem_of_fmap.
  split.
  - intros (m & Hin & Hm). apply bool_decide_eq_true in Hm.
    exists m. split; [done | by apply list_elem_of_In].
  - intros (m & -> & Hin). exists m. split; [by apply list_elem_of_In |].
    by apply bool_decide_eq_true.
Qed.

Lemma isFavourites_false p movieId :
  isFavourites p movieId = false ↔ movieId ∉ ids p.
Proof.
  rewrite <- isFavourites_spec. destruct (isFavourites _ _); naive_solver.
Qed.

Lemma ids_add movie p : ids (addToFavourites movie p) = ids p ++ [id movie].
Proof. unfold ids. rewrite favourites_add. by rewrite fmap_app. Qed.

Lemma ids_remove movieId p :
  ids (removeFromFavourites movieId p) = filter (λ i, i ≠ movieId) (ids p).
Proof.
  unfold ids. rewrite favourites_remove.
  induction (favourites p) as [|m l IH]; [done |].
  rewrite fmap_cons, !filter_cons.
  destruct (decide (id m ≠ movieId)); [rewrite fmap_cons |]; by rewrite IH.
Qed.

Lemma isFavourites_add movie p i :
  isFavourites (addToFavourites movie p) i
  = isFavourites p i || bool_decide (id movie = i).
Proof.
  unfold isFavourites. rewrite favourites_add, existsb_app. simpl.
  by rewrite orb_false_r.
Qed.

Lemma isFavourites_remove movieId p i :
  isFavourites (removeFromFavourites movieId p) i
  = isFavourites p i && negb (bool_decide (movieId = i)).
Proof.
  unfold isFavourites. rewrite favourites_remove.
  induction (favourites p) as [|m l IH]; [done |].
  rewrite filter_cons.
  destruct (decide (id m ≠ movieId)) as [Hne|Heq]; simpl; rewrite IH;
    repeat case_bool_decide; simpl;
    rewrite ?andb_true_r, ?andb_false_r, ?orb_false_r; try congruence.
  apply dec_stable in Heq. congruence.
Qed.

Lemma run_from_snoc p ops o :
  run_from p (ops ++ [o]) = apply_op (run_from p ops) o.
Proof. unfold run_from. by rewrite foldl_app. Qed.

Lemma filter_absent movieId (l : list Movie) :
  movieId ∉ id <$> l → filter (λ movie, id movie ≠ movieId) l = l.
Proof.
  induction l as [|m l IH]; [done |].
  rewrite fmap_cons, not_elem_of_cons. intros [Hne Hnin].
  rewrite filter_cons_True by congruence. by rewrite IH.
Qed.

Lemma NoDup_ids_add movie p :
  id movie ∉ ids p → NoDup (ids p) → NoDup (ids (addToFavourites movie p)).
Proof.
  intros Hnin Hnd. rewrite ids_add. apply NoDup_app. split_and!; [done | | ].
  - intros i Hi Hi'. apply list_elem_of_singleton in Hi'. by subst.
  - apply NoDup_singleton.
Qed.

Lemma NoDup_ids_remove movieId p :
  NoDup (ids p) → NoDup (ids (removeFromFavourites movieId p)).
Proof. intros Hnd. rewrite ids_remove. by apply NoDup_filter. Qed.

Lemma guarded_from_NoDup ops : ∀ p,
  guarded_from p ops = true → NoDup (ids p) → NoDup (ids (run_from p ops)).
Proof.
  induction ops as [|[movie|movieId] ops IH]; intros p Hg Hnd; simpl in *.
  - done.
  - apply andb_true_iff in Hg as [Hfresh Hg]. apply negb_true_iff in Hfresh.
    apply IH; [done |]. apply NoDup_ids_add; [| done].
    by apply isFavourites_false.
  - apply IH; [done |]. by apply NoDup_ids_remove.
Qed.

Lemma isFavourites_run storage ops i :
  isFavourites (run_from (empty storage) ops) i = last_was_add i ops.
Proof.
  unfold last_was_add, last_affecting.
  induction ops as [|o ops IH] using rev_ind; [done |].
  rewrite run_from_snoc, filter_app, filter_cons, filter_nil.
  destruct o as [movie|movieId]; simpl.
  - rewrite isFavourites_add, IH. case_decide.
    + rewrite last_snoc, bool_decide_eq_true_2 by done. apply orb_true_r.
    + rewrite app_nil_r, bool_decide_eq_false_2 by done. apply orb_false_r.
  - rewrite isFavourites_remove, IH. case_decide.
    + rewrite last_snoc, bool_decide_eq_true_2 by done. apply andb_false_r.
    + rewrite app_nil_r, bool_decide_eq_false_2 by done. apply andb_true_r.
Qed.

End store_facts.

Section store_claims.
Import MovieContext.

(** C1, as stated, fails: [addToFavourites] appends without looking.
    Adding Dune to a store that holds Dune changes the store, and two adds
    of Dune from the empty store leave its identifier twice. *)
Lemma add_present_not_noop :
  isFavourites (addToFavourites dune (empty ∅)) (id dune) = true
  ∧ addToFavourites dune (addToFavourites dune (empty ∅))
    ≠ addToFavourites dune (empty ∅)
  ∧ ¬ NoDup (ids (run_from (empty ∅) [Add dune; Add dune])).
Proof.
  split_and!.
  - reflexivity.
  - intros Heq. apply (f_equal (λ p, length (favourites p))) in Heq.
    vm_compute in Heq. discriminate.
  - intros Hnd. vm_compute in Hnd. apply NoDup_cons in Hnd as [Hnin _].
    apply Hnin. apply list_elem_of_here.
Qed.

(** C1, amended: [add(movie)] appends [movie] whatever the store holds;
    every identifier appears at most once after any sequence of adds and
    removes, from the empty store, in which each [add(movie)] is made
    while [contains] answers [false] for the movie's identifier. *)
Theorem guarded_adds_keep_ids_unique storage ops :
  guarded_from (empty storage) ops = true →
  (∀ movie p, favourites (addToFavourites movie p) = favourites p ++ [movie])
  ∧ NoDup (ids (run_from (empty storage) ops)).
Proof.
  intros Hg. split; [done |].
  apply guarded_from_NoDup; [done |]. apply NoDup_nil_2.
Qed.

Lemma guarded_adds_keep_ids_unique_witness :
  guarded_from (empty ∅) [Add dune; Add arrival; Remove 1; Add dune] = true
  ∧ NoDup (ids (run_from (empty ∅) [Add dune; Add arrival; Remove 1; Add dune])).
Proof.
  split; [reflexivity |].
  apply (guarded_adds_keep_ids_unique ∅ [Add dune; Add arrival; Remove 1; Add dune]).
  reflexivity.
Defined.

(** C2: after any sequence of adds and removes from the empty store,
    [contains(i)] is true exactly when the last call that touches [i] is an
    add of a movie whose identifier is [i]. *)
Theorem contains_follows_last_call storage ops i :
  isFavourites (run_from (empty storage) ops) i = true
  ↔ ∃ movie, last_affecting i ops = Some (Add movie) ∧ id movie = i.
Proof.
  rewrite isFavourites_run. unfold last_was_add.
  destruct (last_affecting i ops) as [[movie|movieId]|] eqn:Hlast.
  - split; [intros _ | done]. exists movie. split; [done |].
    unfold last_affecting in Hlast. apply last_Some_elem_of in Hlast.
    apply list_elem_of_filter in Hlast as [Ha _]. exact Ha.
  - split; [done |]. by intros (movie & [=] & _).
  - split; [done |]. by intros (movie & [=] & _).
Qed.

(** C9: removing an identifier twice is removing it once, and removing an
    identifier the store does not hold leaves the favourites as they are. *)
Theorem remove_idempotent p movieId :
  removeFromFavourites movieId (removeFromFavourites movieId p)
  = removeFromFavourites movieId p
  ∧ (isFavourites p movieId = false →
     favourites (removeFromFavourites movieId p) = favourites p).
Proof.
  split.
  - unfold removeFromFavourites, setFavourites, persist_effect,
      localStorage.setItem. simpl.
    rewrite insert_insert_eq.
    rewrite (filter_absent movieId (filter _ (favourites p))); [done |].
    intros Hin. apply list_elem_of_fmap in Hin as (m & -> & Hm).
    apply list_elem_of_filter in Hm as [Hne _]. done.
  - intros Hno. rewrite favourites_remove. apply filter_absent.
    by apply isFavourites_false.
Qed.

Lemma remove_idempotent_witness :
  isFavourites (addToFavourites dune (empty ∅)) 2 = false
  ∧ favourites (removeFromFavourites 2 (addToFavourites dune (empty ∅)))
    = favourites (addToFavourites dune (empty ∅)).
Proof.
  split; [reflexivity |].
  apply (remove_idempotent (addToFavourites dune (empty ∅)) 2). reflexivity.
Defined.

(** C10: one [remove(i)] deletes every entry whose identifier is [i],
    however many there are, so that [contains(i)] is false afterwards; the
    entries that remain are all the others, in the order they had. *)
Theorem remove_deletes_all_copies p movieId :
  isFavourites (removeFromFavourites movieId p) movieId = false
  ∧ favourites (removeFromFavourites movieId p) `sublist_of` favourites p
  ∧ favourites p
    ≡ₚ favourites (removeFromFavourites movieId p)
       ++ filter (λ movie, id movie = movieId) (favourites p).
Proof.
  split_and!.
  - rewrite isFavourites_remove, bool_decide_eq_true_2 by done.
    apply andb_false_r.
  - rewrite favourites_remove. apply sublist_filter.
  - rewrite favourites_remove.
    induction (favourites p) as [|m l IH]; [done |].
    rewrite !filter_cons.
    destruct (decide (id m ≠ movieId)) as [Hne|Heq].
    + rewrite decide_False by done. simpl. by f_equiv.
    + apply dec_stable in Heq. rewrite decide_True by done.
      rewrite <- Permutation_middle. by f_equiv.
Qed.

(** C5: after [add(movie)] and after [remove(movieId)] the slot
    ["favourites"] of the storage holds the JSON text of the whole current
    array, and no other slot has changed. *)
Theorem mutation_persists_whole_set p o :
  localStorage.getItem "favourites" (storage (apply_op p o))
  = Some (JSON.stringify (movies_to_json (favourites (apply_op p o))))
  ∧ ∀ key, key ≠ "favourites" →
      localStorage.getItem key (storage (apply_op p o))
      = localStorage.getItem key (storage p).
Proof.
  unfold localStorage.getItem.
  destruct o as [movie|movieId]; simpl; split;
    try (apply lookup_insert_eq);
    intros key Hkey; by apply lookup_insert_ne.
Qed.

End store_claims.

(** ** Strings *)
Section string_facts.
Local Arguments String.append : simpl nomatch.

Lemma append_nil_r (s : string) : (s ++ "")%string = s.
Proof. induction s as [|c s IH]; simpl; [done | by rewrite IH]. Qed.

Lemma append_assoc (s t u : string) : ((s ++ t) ++ u = s ++ t ++ u)%string.
Proof. induction s as [|c s IH]; simpl; [done | by rewrite IH]. Qed.

Lemma append_cons c (s t : string) : (String c s ++ t)%string = String c (s ++ t).
Proof. reflexivity. Qed.

Lemma append_nil_l (s : string) : ("" ++ s)%string = s.
Proof. reflexivity. Qed.

Lemma ascii_eqb_true (c d : ascii) : Ascii.eqb c d = true ↔ c = d.
Proof. apply Ascii.eqb_eq. Qed.

Lemma startsWith_spec s sub :
  JS.startsWith s sub = true ↔ ∃ rest, s = (sub ++ rest)%string.
Proof.
  revert s. induction sub as [|d sub IH]; intros s; simpl.
  - split; [intros _; by exists s | done].
  - destruct s as [|c s].
    + split; [done | by intros (rest & [=])].
    + rewrite andb_true_iff, ascii_eqb_true, IH. split.
      * intros (-> & rest & ->). by exists rest.
      * intros (rest & [= -> ->]). split; [done | by exists rest].
Qed.

Lemma includes_spec s sub :
  JS.includes s sub = true ↔ ∃ before rest, s = (before ++ sub ++ rest)%string.
Proof.
  induction s as [|c s IH]; simpl; rewrite orb_true_iff, startsWith_spec.
  - split.
    + intros [(rest & ->) | [=]]. by exists "", rest.
    + intros (before & rest & Heq). left.
      destruct before as [|b before]; simpl in Heq; [by exists rest | done].
  - rewrite IH. split.
    + intros [(rest & ->) | (before & rest & ->)].
      * by exists "", rest.
      * by exists (String c before), rest.
    + intros (before & rest & Heq).
      destruct before as [|b before]; simpl in Heq.
      * left. by exists rest.
      * right. injection Heq as -> ->. by exists before, rest.
Qed.

(** The test of the render filter is occurrence of the lower-cased query
    in the lower-cased text. *)
Lemma includes_lowered query text :
  JS.includes (JS.toLowerCase text) (JS.toLowerCase query) = true
  ↔ Home.occurs_lowered query text.
Proof. apply includes_spec. Qed.

Lemma trimStart_blank s : Home.blank s → JS.trimStart s = "".
Proof.
  unfold Home.blank. induction s as [|c s IH]; simpl; [done |].
  intros Hall. apply Forall_cons in Hall as [-> Hall]. by apply IH.
Qed.

Lemma trimEnd_nil_blank s : JS.trimEnd s = "" → Home.blank s.
Proof.
  unfold Home.blank. induction s as [|c s IH]; simpl; [constructor |].
  destruct (JS.trimEnd s); [| done].
  destruct (JS.isWhiteSpace c) eqn:Hc; [| done].
  intros _. constructor; [done | by apply IH].
Qed.

Lemma trimStart_suffix s : ∃ gone, s = (gone ++ JS.trimStart s)%string ∧ Home.blank gone.
Proof.
  induction s as [|c s (gone & Heq & Hgone)]; simpl.
  - exists "". split; [done | constructor].
  - destruct (JS.isWhiteSpace c) eqn:Hc.
    + exists (String c gone). simpl. split; [by rewrite <- Heq |].
      by constructor.
    + exists "". split; [done | constructor].
Qed.

Lemma blank_append s t : Home.blank s → Home.blank t → Home.blank (s ++ t).
Proof.
  unfold Home.blank. induction s as [|c s IH]; simpl; [done |].
  intros Hs Ht. apply Forall_cons in Hs as [Hc Hs]. constructor; auto.
Qed.

(** [!searchQuery.trim()] holds exactly of blank text. *)
Lemma trim_blank s : JS.truthy (JS.trim s) = false ↔ Home.blank s.
Proof.
  unfold JS.trim. split.
  - intros Hf. destruct (JS.trimEnd (JS.trimStart s)) eqn:Hend; [| done].
    apply trimEnd_nil_blank in Hend.
    destruct (trimStart_suffix s) as (gone & Heq & Hgone).
    rewrite Heq. by apply blank_append.
  - intros Hb. by rewrite trimStart_blank.
Qed.

End string_facts.

#[global] Instance occurs_lowered_dec query text :
  Decision (Home.occurs_lowered query text).
Proof.
  destruct (JS.includes (JS.toLowerCase text) (JS.toLowerCase query)) eqn:Hinc.
  - left. by apply includes_lowered.
  - right. intros Hocc. apply includes_lowered in Hocc. congruence.
Defined.

(** ** The browse view *)
Section home_claims.
Import Home.

(** C6: a submission with an empty or white-space-only query, or while a
    call is in flight, changes nothing: the handler returns with the state
    it found, and issues no call. *)
Theorem blank_or_busy_submit_is_noop st :
  blank (searchQuery st) ∨ loading st = true →
  handleSearch st = Returned st
  ∧ state_of (handleSearch st) = st
  ∧ call_of (handleSearch st) = None.
Proof.
  intros Hguard.
  assert (handleSearch st = Returned st) as ->; [| done].
  unfold handleSearch. destruct Hguard as [Hblank | Hbusy].
  - apply trim_blank in Hblank. by rewrite Hblank.
  - rewrite Hbusy. by destruct (negb _).
Qed.

Lemma blank_or_busy_submit_is_noop_witness :
  ((blank "  " ∨ false = true)
   ∧ handleSearch (mkState "  " [] (Some "Failed to load movies...") false)
     = Returned (mkState "  " [] (Some "Failed to load movies...") false))
  ∧ ((blank "dune" ∨ true = true)
     ∧ call_of (handleSearch (mkState "dune" [arrival] None true)) = None).
Proof.
  assert (blank "  ") as Hblank by (repeat constructor).
  split; split.
  - by left.
  - apply (blank_or_busy_submit_is_noop
             (mkState "  " [] (Some "Failed to load movies...") false)).
    by left.
  - by right.
  - apply (blank_or_busy_submit_is_noop (mkState "dune" [arrival] None true)).
    by right.
Defined.

(** C7: the mount effect calls [getPopularMovies]; when the call is
    rejected the error message is "Failed to load movies..." and the
    result list is the one the view had (empty at the start); however the
    call settles, the loading flag is false afterwards. *)
Theorem popular_load_failure st now :
  call_of (loadPopularMovies st) = Some getPopularMovies
  ∧ movies initial = []
  ∧ (∀ err,
       error (settle (loadPopularMovies st) (Rejected err) now)
       = Some "Failed to load movies..."
       ∧ movies (settle (loadPopularMovies st) (Rejected err) now) = movies now)
  ∧ (∀ outcome, loading (settle (loadPopularMovies st) outcome now) = false).
Proof. split_and!; done. Qed.

(** C8, as stated, fails while a call is in flight: after the popular
    movies have loaded, typing "dun" and submitting leaves a state whose
    result list holds Dune, whose title contains the query, and which
    displays the loading text and no movie. *)
Lemma nothing_displayed_while_loading :
  let loaded := settle (loadPopularMovies initial) (Resolved [dune; arrival]) initial in
  let searching := state_of (handleSearch (setSearchQuery "dun" loaded)) in
  dune ∈ movies searching
  ∧ occurs_ignoring_case (searchQuery searching) (title dune)
  ∧ content (render searching) = Loading
  ∧ dune ∉ displayed searching.
Proof.
  split_and!.
  - apply list_elem_of_here.
  - by exists "", "Dun", "e".
  - reflexivity.
  - apply not_elem_of_nil.
Qed.

(** C8, amended: when the loading flag is false the movies displayed are
    exactly the entries of the result list whose lower-cased title
    contains the lower-cased query, in the order of the list.  While the
    loading flag is true the view shows the loading text and no movie.
    Rendering leaves the stored list alone, so that with the query
    cleared, and the loading flag false, the whole list is displayed. *)
Theorem displayed_is_filtered_list st :
  (loading st = false →
   displayed st
   = filter (λ movie, occurs_lowered (searchQuery st) (title movie)) (movies st)
   ∧ (∀ movie, movie ∈ displayed st
        ↔ movie ∈ movies st ∧ occurs_lowered (searchQuery st) (title movie))
   ∧ displayed (setSearchQuery "" st) = movies st)
  ∧ (loading st = true → content (render st) = Loading ∧ displayed st = [])
  ∧ (∀ query, movies (setSearchQuery query st) = movies st).
Proof.
  assert (∀ st', loading st' = false →
            displayed st'
            = filter (λ movie, occurs_lowered (searchQuery st') (title movie))
                     (movies st')) as Hfilter.
  { intros st' Hidle'. unfold displayed, render. simpl. rewrite Hidle'.
    induction (movies st') as [|m l IH]; [done |].
    rewrite filter_cons.
    change (omap ?f (m :: l))
      with (match f m with Some y => y :: omap f l | None => omap f l end).
    rewrite IH. simpl.
    destruct (JS.includes _ _) eqn:Hinc.
    - rewrite decide_True; [done | by apply includes_lowered].
    - rewrite decide_False; [done |]. intros Hocc.
      apply includes_lowered in Hocc. congruence. }
  split_and!.
  - intros Hidle. split_and!.
    + by apply Hfilter.
    + intros movie. rewrite Hfilter by done. rewrite list_elem_of_filter. tauto.
    + rewrite Hfilter by done. simpl.
      induction (movies st) as [|m l IH]; [done |].
      rewrite filter_cons_True; [by rewrite IH |].
      by exists "", (JS.toLowerCase (title m)).
  - intros Hbusy. unfold displayed, render. simpl. by rewrite Hbusy.
  - done.
Qed.

Lemma displayed_is_filtered_list_witness :
  (loading (mkState "DUN" [dune; arrival] None false) = false
   ∧ displayed (mkState "DUN" [dune; arrival] None false)
     = filter (λ movie, occurs_lowered "DUN" (title movie)) [dune; arrival])
  ∧ (loading (mkState "DUN" [dune; arrival] None true) = true
     ∧ displayed (mkState "DUN" [dune; arrival] None true) = []).
Proof.
  split; (split; [reflexivity |]).
  - apply (displayed_is_filtered_list (mkState "DUN" [dune; arrival] None false)).
    reflexivity.
  - apply (displayed_is_filtered_list (mkState "DUN" [dune; arrival] None true)).
    reflexivity.
Defined.

End home_claims.

(** ** JSON text: what the parser reads back from [JSON.stringify] *)
Section json_strings.
Import JSON.
Local Arguments String.append : simpl nomatch.

Lemma length_append (s t : string) :
  String.length (s ++ t) = (String.length s + String.length t)%nat.
Proof. induction s as [|c s IH]; simpl; [done | by rewrite IH]. Qed.

Lemma parse_chars_escape_char c tail :
  parse_chars (escape_char c ++ tail) = push c (parse_chars tail).
Proof. destruct c as [[] [] [] [] [] [] [] []]; reflexivity. Qed.

(** A quoted string reads back as the string. *)
Lemma parse_chars_escape s rest :
  parse_chars (escape s ++ String quotation_mark rest) = Value (s, rest).
Proof.
  induction s as [|c s IH]; simpl; [done |].
  by rewrite append_assoc, parse_chars_escape_char, IH.
Qed.

Lemma read_digits_print u rest :
  ends_number rest = true →
  read_digits (NilEmpty.string_of_uint u ++ rest) = (u, rest).
Proof.
  intros Hend.
  induction u as [|u IH|u IH|u IH|u IH|u IH|u IH|u IH|u IH|u IH|u IH]; simpl;
    try (by rewrite IH).
  destruct rest as [|c rest]; [done |]. simpl in *.
  apply andb_true_iff in Hend as [Hc _]. apply negb_true_iff in Hc.
  by rewrite Hc.
Qed.

Lemma leading_zero_unorm u : unorm u = u → leading_zero u = false.
Proof.
  destruct u as [|u| | | | | | | | |]; try done.
  unfold unorm. simpl. intros Heq.
  destruct (nzhead u) eqn:Hnz; try done.
  - by injection Heq as <-.
  - by apply nzhead_nonzero in Hnz.
Qed.

Lemma to_uint_canonical p :
  Pos.to_uint p ≠ Nil ∧ leading_zero (Pos.to_uint p) = false.
Proof.
  split; [apply DecimalPos.Unsigned.to_uint_nonnil |].
  apply leading_zero_unorm.
  rewrite <- (DecimalPos.Unsigned.to_of (Pos.to_uint p)).
  by rewrite DecimalPos.Unsigned.of_to.
Qed.

Lemma print_uint_head u :
  u ≠ Nil →
  ∃ c s, NilEmpty.string_of_uint u = String c s
         ∧ is_digit c = true ∧ Ascii.eqb c "-" = false.
Proof. destruct u; [done | ..]; intros _; by eexists _, _. Qed.

Lemma parse_number_digits negative u rest :
  u ≠ Nil → leading_zero u = false → ends_number rest = true →
  parse_number ((if negative : bool then "-" else "")
                ++ NilEmpty.string_of_uint u ++ rest)
  = Value (JNumber (Z.of_int (if negative then Decimal.Neg u else Decimal.Pos u)), rest).
Proof.
  intros Hnil Hlead Hend. unfold parse_number.
  assert (starts_fraction_or_exponent rest = false) as Hfrac.
  { destruct rest as [|c rest]; [done |]. simpl in Hend.
    apply andb_true_iff in Hend as [_ Hfrac]. by apply negb_true_iff in Hfrac. }
  destruct negative; simpl.
  - rewrite read_digits_print by done. rewrite Hlead, Hfrac. by destruct u.
  - destruct (print_uint_head u Hnil) as (c & s & Hprint & _ & Hminus).
    pose proof (read_digits_print u rest Hend) as Hread.
    rewrite Hprint in Hread |- *.
    change (String c s ++ rest)%string with (String c (s ++ rest)) in *.
    cbv beta iota. rewrite Hminus, Hread, Hlead, Hfrac. by destruct u.
Qed.

(** A printed integer reads back as the integer. *)
Lemma parse_number_print n rest :
  ends_number rest = true →
  parse_number (number_to_string n ++ rest) = Value (JNumber n, rest).
Proof.
  intros Hend. unfold number_to_string.
  rewrite <- (DecimalZ.of_to n) at 2.
  destruct n as [|p|p]; simpl Z.to_int.
  - by apply (parse_number_digits false).
  - destruct (to_uint_canonical p). by apply (parse_number_digits false).
  - destruct (to_uint_canonical p). by apply (parse_number_digits true).
Qed.

End json_strings.

Section json_roundtrip.
Import JSON.
Local Arguments String.append : simpl nomatch.

(** Induction on JSON values, with the hypothesis for every element of an
    array and every member of an object. *)
Lemma json_ind (P : json → Prop) :
  P JNull →
  (∀ b, P (JBool b)) →
  (∀ n, P (JNumber n)) →
  (∀ s, P (JString s)) →
  (∀ elements, Forall P elements → P (JArray elements)) →
  (∀ members, Forall (λ member, P (snd member)) members → P (JObject members)) →
  ∀ v, P v.
Proof.
  intros Hnull Hbool Hnum Hstr Harr Hobj.
  fix IH 1. intros [|b|n|s|elements|members].
  - exact Hnull.
  - apply Hbool.
  - apply Hnum.
  - apply Hstr.
  - apply Harr. induction elements as [|e elements IHl]; constructor; [apply IH | exact IHl].
  - apply Hobj. induction members as [|[k e] members IHl]; constructor;
      [apply IH | exact IHl].
Qed.

Lemma parse_value_step fuel s :
  parse_value (S fuel) s
  = match skip_ws s with
    | EmptyString => SyntaxError
    | String c rest =>
        if Ascii.eqb c "n" then expect "ull" rest JNull
        else if Ascii.eqb c "t" then expect "rue" rest (JBool true)
        else if Ascii.eqb c "f" then expect "alse" rest (JBool false)
        else if Ascii.eqb c quotation_mark then
          '(str, rest') ← parse_chars rest; Value (JString str, rest')
        else if Ascii.eqb c "-" || is_digit c then parse_number (String c rest)
        else if Ascii.eqb c "[" then
          match skip_ws rest with
          | EmptyString => SyntaxError
          | String c' rest' =>
              if Ascii.eqb c' "]" then Value (JArray [], rest')
              else parse_elements fuel [] rest
          end
        else if Ascii.eqb c "{" then
          match skip_ws rest with
          | EmptyString => SyntaxError
          | String c' rest' =>
              if Ascii.eqb c' "}" then Value (JObject [], rest')
              else parse_members fuel [] rest
          end
        else SyntaxError
    end.
Proof. reflexivity. Qed.

Lemma parse_elements_step fuel acc s :
  parse_elements (S fuel) acc s
  = '(v, rest) ← parse_value fuel s;
    match skip_ws rest with
    | EmptyString => SyntaxError
    | String c rest' =>
        if Ascii.eqb c "," then parse_elements fuel (acc ++ [v]) rest'
        else if Ascii.eqb c "]" then Value (JArray (acc ++ [v]), rest')
        else SyntaxError
    end.
Proof. reflexivity. Qed.

Lemma parse_members_step fuel acc s :
  parse_members (S fuel) acc s
  = match skip_ws s with
    | EmptyString => SyntaxError
    | String c rest =>
        if Ascii.eqb c quotation_mark then
          '(key, rest1) ← parse_chars rest;
          match skip_ws rest1 with
          | EmptyString => SyntaxError
          | String c1 rest2 =>
              if Ascii.eqb c1 ":" then
                '(v, rest3) ← parse_value fuel rest2;
                if index_like key then Unmodelled
                else
                  match skip_ws rest3 with
                  | EmptyString => SyntaxError
                  | String c3 rest4 =>
                      if Ascii.eqb c3 "," then
                        parse_members fuel (obj_set key v acc) rest4
                      else if Ascii.eqb c3 "}" then
                        Value (JObject (obj_set key v acc), rest4)
                      else SyntaxError
                  end
              else SyntaxError
          end
        else SyntaxError
    end.
Proof. reflexivity. Qed.

Lemma number_to_string_head n :
  ∃ c s, number_to_string n = String c s ∧ Ascii.eqb c "-" || is_digit c = true.
Proof.
  unfold number_to_string. destruct (Z.to_int n) as [u|u] eqn:Hint.
  - assert (u ≠ Nil) as Hnil.
    { destruct n; simpl in Hint; try discriminate; injection Hint as <-;
        [done | apply DecimalPos.Unsigned.to_uint_nonnil]. }
    destruct (print_uint_head u Hnil) as (c & s & -> & Hd & _).
    exists c, s. by rewrite Hd, orb_true_r.
  - by eexists _, _.
Qed.

Lemma stringify_head v : ∃ c s, stringify v = String c s ∧ opens_value v c.
Proof.
  destruct v as [|[]|n|s|l|ms]; simpl.
  - eexists _, _. split; [done | by apply opens_null].
  - eexists _, _. split; [done | by apply opens_true].
  - eexists _, _. split; [done | by apply opens_false].
  - destruct (number_to_string_head n) as (c & s & -> & Hc).
    eexists _, _. split; [done | by eapply opens_number].
  - eexists _, _. split; [done | by eapply opens_string].
  - eexists _, _. split; [done | by eapply opens_array].
  - eexists _, _. split; [done | by eapply opens_object].
Qed.

Lemma digit_or_minus_plain c :
  Ascii.eqb c "-" || is_digit c = true →
  is_ws c = false ∧ Ascii.eqb c "]" = false ∧ Ascii.eqb c "}" = false
  ∧ Ascii.eqb c "n" = false ∧ Ascii.eqb c "t" = false ∧ Ascii.eqb c "f" = false
  ∧ Ascii.eqb c quotation_mark = false.
Proof. destruct c as [[] [] [] [] [] [] [] []]; simpl; try done. Qed.

Lemma opens_value_plain v c :
  opens_value v c →
  is_ws c = false ∧ Ascii.eqb c "]" = false ∧ Ascii.eqb c "}" = false.
Proof.
  intros [_ ->|_ ->|_ ->|n _ Hc|s _ ->|l _ ->|ms _ ->]; try done.
  apply digit_or_minus_plain in Hc. tauto.
Qed.

Lemma delimited_ends_number rest : delimited rest = true → ends_number rest = true.
Proof.
  destruct rest as [|c rest]; [done |]. simpl.
  destruct c as [[] [] [] [] [] [] [] []]; simpl; done.
Qed.

Lemma skip_ws_plain c s : is_ws c = false → skip_ws (String c s) = String c s.
Proof. intros Hc. simpl. by rewrite Hc. Qed.

Lemma obj_set_fresh key v acc :
  key ∉ List.map fst acc → obj_set key v acc = acc ++ [(key, v)].
Proof.
  induction acc as [|[k w] acc IH]; simpl; [done |].
  rewrite not_elem_of_cons. intros [Hne Hnin].
  destruct (String.eqb_spec k key) as [->|_]; [done |]. by rewrite IH.
Qed.

Ltac normalize_append :=
  repeat (rewrite append_assoc || rewrite append_cons || rewrite append_nil_l).

Lemma concat_head (e : json) (l : list json) :
  ∃ c s, String.concat "," (List.map stringify (e :: l)) = String c s
         ∧ opens_value e c.
Proof.
  destruct (stringify_head e) as (c & s & Hs & Ho). simpl.
  destruct l as [|e' l]; simpl; rewrite Hs; by eexists _, _.
Qed.

Lemma parse_elements_concat l :
  Forall reads_back l → forallb canonical l = true → l ≠ [] →
  ∀ acc fuel rest,
    (String.length (String.concat "," (List.map stringify l)) < fuel)%nat →
    parse_elements fuel acc
      (String.concat "," (List.map stringify l) ++ String "]" rest)
    = Value (JArray (acc ++ l), rest).
Proof.
  induction l as [|e l IH]; [done |].
  intros Hall Hcan _ acc fuel rest Hfuel.
  apply Forall_cons in Hall as [He Hall].
  simpl in Hcan. apply andb_true_iff in Hcan as [Hcane Hcan].
  destruct fuel as [|fuel]; [lia |]. rewrite parse_elements_step.
  destruct l as [|e' l].
  - simpl in *. rewrite He by (done || lia). reflexivity.
  - change (String.concat "," (List.map stringify (e :: e' :: l)))
      with (stringify e ++ "," ++ String.concat "," (List.map stringify (e' :: l)))%string
      in *.
    set (tail := String.concat "," (List.map stringify (e' :: l))) in *.
    rewrite !length_append in Hfuel. simpl in Hfuel.
    rewrite !append_assoc. rewrite He by (done || lia). simpl.
    rewrite IH by (done || lia). by rewrite <- app_assoc.
Qed.

Lemma parse_member key v fuel acc tail :
  reads_back v → canonical v = true → index_like key = false →
  (String.length (stringify v) ≤ fuel)%nat → delimited tail = true →
  parse_members (S fuel) acc (print_member (key, v) ++ tail)
  = match tail with
    | EmptyString => SyntaxError
    | String c rest =>
        if Ascii.eqb c "," then parse_members fuel (obj_set key v acc) rest
        else if Ascii.eqb c "}" then Value (JObject (obj_set key v acc), rest)
        else SyntaxError
    end.
Proof.
  intros Hv Hcan Hkey Hfuel Htail.
  rewrite parse_members_step. unfold print_member, quote. simpl fst. simpl snd.
  normalize_append.
  rewrite skip_ws_plain by done.
  change (Ascii.eqb quotation_mark quotation_mark) with true. cbv beta iota.
  rewrite parse_chars_escape.
  simpl. rewrite Hv by done. simpl. rewrite Hkey.
  destruct tail as [|c rest]; [done |].
  assert (is_ws c = false) as Hc.
  { simpl in Htail. destruct c as [[] [] [] [] [] [] [] []]; done. }
  by rewrite skip_ws_plain.
Qed.

Lemma parse_members_concat ms :
  Forall (λ member, reads_back (snd member)) ms →
  forallb (λ member, negb (index_like (fst member)) && canonical (snd member)) ms = true →
  NoDup (List.map fst ms) → ms ≠ [] →
  ∀ acc fuel rest,
    (∀ key, key ∈ List.map fst ms → key ∉ List.map fst acc) →
    (String.length (String.concat "," (List.map print_member ms)) < fuel)%nat →
    parse_members fuel acc
      (String.concat "," (List.map print_member ms) ++ String "}" rest)
    = Value (JObject (acc ++ ms), rest).
Proof.
  induction ms as [|[key v] ms IH]; [done |].
  intros Hall Hcan Hnd _ acc fuel rest Hfresh Hfuel.
  apply Forall_cons in Hall as [Hv Hall]. simpl in Hv.
  simpl in Hcan. apply andb_true_iff in Hcan as [Hkv Hcan].
  apply andb_true_iff in Hkv as [Hkey Hcanv]. apply negb_true_iff in Hkey.
  simpl in Hnd. apply NoDup_cons in Hnd as [Hnin Hnd].
  assert (obj_set key v acc = acc ++ [(key, v)]) as Hset.
  { apply obj_set_fresh, Hfresh. simpl. apply list_elem_of_here. }
  destruct fuel as [|fuel]; [lia |].
  destruct ms as [|member ms].
  - simpl String.concat in *. unfold print_member in Hfuel.
    rewrite !length_append in Hfuel. simpl in Hfuel.
    rewrite parse_member by (done || lia). simpl. by rewrite Hset.
  - change (String.concat "," (List.map print_member ((key, v) :: member :: ms)))
      with (print_member (key, v) ++ ","
            ++ String.concat "," (List.map print_member (member :: ms)))%string in *.
    set (tail := String.concat "," (List.map print_member (member :: ms))) in *.
    unfold print_member in Hfuel. rewrite !length_append in Hfuel. simpl in Hfuel.
    rewrite !append_assoc.
    rewrite parse_member by (done || lia). simpl. rewrite Hset.
    rewrite IH; [by rewrite <- app_assoc | done | done | done | done | | lia].
    intros k Hk. rewrite fmap_app, not_elem_of_app. split.
    + apply Hfresh. simpl. by apply list_elem_of_further.
    + simpl. rewrite list_elem_of_singleton. intros ->. done.
Qed.

Lemma stringify_array elements :
  stringify (JArray elements)
  = ("[" ++ String.concat "," (List.map stringify elements) ++ "]")%string.
Proof. reflexivity. Qed.

Lemma stringify_object members :
  stringify (JObject members)
  = ("{" ++ String.concat "," (List.map print_member members) ++ "}")%string.
Proof. reflexivity. Qed.

Lemma stringify_nonempty v fuel :
  (String.length (stringify v) ≤ fuel)%nat → (1 ≤ fuel)%nat.
Proof.
  destruct (stringify_head v) as (c & s & -> & _). simpl. lia.
Qed.

(** The parser reads a printed value back, and leaves what follows it. *)
Lemma stringify_reads_back v : reads_back v.
Proof.
  induction v as [|b|n|s|elements IH|members IH] using json_ind;
    intros Hcan fuel rest Hfuel Hrest;
    (destruct fuel as [|fuel];
     [pose proof (stringify_nonempty _ _ Hfuel); lia |]);
    rewrite parse_value_step.
  - reflexivity.
  - destruct b; reflexivity.
  - destruct (number_to_string_head n) as (c & s & Hs & Hc).
    pose proof (parse_number_print n rest (delimited_ends_number _ Hrest)) as Hnum.
    simpl stringify. rewrite Hs in Hnum |- *. normalize_append.
    rewrite append_cons in Hnum.
    destruct (digit_or_minus_plain c Hc) as (Hws & _ & _ & Hn & Ht & Hf & Hq).
    rewrite skip_ws_plain by done. by rewrite Hn, Ht, Hf, Hq, Hc.
  - simpl stringify. unfold quote. normalize_append.
    rewrite skip_ws_plain by done.
    change (Ascii.eqb quotation_mark "n") with false.
    change (Ascii.eqb quotation_mark "t") with false.
    change (Ascii.eqb quotation_mark "f") with false.
    change (Ascii.eqb quotation_mark quotation_mark) with true. cbv beta iota.
    by rewrite parse_chars_escape.
  - rewrite stringify_array in *. simpl in Hcan.
    rewrite !length_append in Hfuel. normalize_append.
    rewrite skip_ws_plain by done. simpl.
    destruct elements as [|e elements]; [done |].
    destruct (concat_head e elements) as (c & s & Hs & Ho).
    apply opens_value_plain in Ho as (Hws & Hbr & _).
    pose proof (parse_elements_concat (e :: elements) IH Hcan) as Hread.
    rewrite Hs in Hread, Hfuel |- *.
    rewrite append_cons, skip_ws_plain, Hbr by done.
    rewrite <- append_cons. rewrite Hread; [done | done |].
    simpl in *. lia.
  - rewrite stringify_object in *. simpl in Hcan.
    rewrite !length_append in Hfuel. normalize_append.
    rewrite skip_ws_plain by done. simpl.
    apply andb_true_iff in Hcan as [Hnd Hcan]. apply bool_decide_eq_true in Hnd.
    destruct members as [|[key v] members]; [done |].
    pose proof (parse_members_concat ((key, v) :: members) IH Hcan Hnd) as Hread.
    assert (∃ s, String.concat "," (List.map print_member ((key, v) :: members))
                 = String quotation_mark s) as (s & Hs).
    { simpl. destruct members; by eexists. }
    rewrite Hs in Hread, Hfuel |- *.
    rewrite append_cons, skip_ws_plain by done.
    change (Ascii.eqb quotation_mark "}") with false. cbv beta iota.
    rewrite <- append_cons. rewrite Hread; [done | done | | simpl in *; lia].
    intros k _. apply not_elem_of_nil.
Qed.

(** [JSON.parse(JSON.stringify(v))] is [v]. *)
Lemma parse_stringify v : canonical v = true → parse (stringify v) = Value v.
Proof.
  intros Hcan. unfold parse.
  pose proof (stringify_reads_back v Hcan (S (String.length (stringify v))) "") as Hread.
  rewrite append_nil_r in Hread. rewrite Hread by (done || lia). reflexivity.
Qed.

End json_roundtrip.

(** ** Movies as JSON *)
Section movie_json.
Import JSON.

Lemma movie_of_to_json movie : movie_of_json (movie_to_json movie) = Some movie.
Proof. by destruct movie as [i t [path|]]. Qed.

Lemma movies_of_to_json l : movies_of_json (movies_to_json l) = Some l.
Proof.
  unfold movies_of_json, movies_to_json. apply mapM_Some.
  induction l as [|m l IH]; constructor; [apply movie_of_to_json | exact IH].
Qed.

Lemma movie_to_json_canonical movie : canonical (movie_to_json movie) = true.
Proof.
  destruct movie as [i t [path|]]; reflexivity.
Qed.

Lemma movies_to_json_canonical l : canonical (movies_to_json l) = true.
Proof.
  unfold movies_to_json.
  change (forallb canonical (movie_to_json <$> l) = true).
  apply forallb_forall. intros v Hin.
  apply list_elem_of_In, list_elem_of_fmap in Hin as (m & -> & _).
  apply movie_to_json_canonical.
Qed.

(** The stored text of a list of movies parses back to the list. *)
Lemma parse_stringify_movies l :
  parse (stringify (movies_to_json l)) = Value (movies_to_json l).
Proof. apply parse_stringify, movies_to_json_canonical. Qed.

End movie_json.

(** ** Mounting the provider *)
Section mount_claims.
Import MovieContext.

Lemma mount_absent slots :
  localStorage.getItem "favourites" slots = None
  ∨ localStorage.getItem "favourites" slots = Some "" →
  mount slots = Ready (persist_effect (empty slots)).
Proof. unfold mount, init_effect. by intros [-> | ->]. Qed.

Lemma mount_movies slots text favs :
  localStorage.getItem "favourites" slots = Some text →
  JSON.parse text = JSON.Value (movies_to_json favs) →
  mount slots
  = Ready (persist_effect
             {| favourites := favs;
                storage := storage (persist_effect (empty slots)) |}).
Proof.
  intros Hget Hparse. unfold mount, init_effect. rewrite Hget.
  destruct text as [|c text]; [done |]. simpl JS.truthy. cbv iota.
  rewrite Hparse. unfold mbind, JSON.parsed_bind. cbv beta iota.
  by rewrite movies_of_to_json.
Qed.

Lemma mount_syntax_error slots text :
  localStorage.getItem "favourites" slots = Some text →
  text ≠ "" →
  JSON.parse text = JSON.SyntaxError →
  mount slots = Throws.
Proof.
  intros Hget Htext Hparse. unfold mount, init_effect. rewrite Hget.
  destruct text as [|c text]; [done |]. simpl JS.truthy. cbv iota.
  by rewrite Hparse.
Qed.

(** C3, as stated, fails: the first effect calls [JSON.parse] with no
    handler around it.  Stored text that is not JSON makes the call throw,
    and stored text that is JSON but no array of movies is adopted as the
    state, not replaced by the empty array. *)
Lemma malformed_store_not_discarded :
  mount {[ "favourites" := "{oops" ]} = Throws
  ∧ mount {[ "favourites" := "5" ]}
    = Adopted (JSON.JNumber 5) {[ "favourites" := "5" ]}.
Proof.
  split.
  - apply (mount_syntax_error _ "{oops"); [reflexivity | done | reflexivity].
  - unfold mount, init_effect, localStorage.getItem.
    rewrite lookup_singleton_eq. simpl. unfold localStorage.setItem.
    by rewrite !insert_singleton_eq.
Qed.

(** C3, amended: with the slot absent or empty the favourites start empty;
    with stored text that parses as a sequence of movies that sequence is
    the initial favourites; with stored text that does not parse
    [JSON.parse] throws its [SyntaxError] and mounting does not end
    normally. *)
Theorem mount_outcomes slots :
  (localStorage.getItem "favourites" slots = None
   ∨ localStorage.getItem "favourites" slots = Some "" →
   ∃ p, mount slots = Ready p ∧ favourites p = [])
  ∧ (∀ text favs,
       localStorage.getItem "favourites" slots = Some text →
       JSON.parse text = JSON.Value (movies_to_json favs) →
       ∃ p, mount slots = Ready p ∧ favourites p = favs)
  ∧ (∀ text,
       localStorage.getItem "favourites" slots = Some text →
       text ≠ "" →
       JSON.parse text = JSON.SyntaxError →
       mount slots = Throws).
Proof.
  split_and!.
  - intros Habsent. eexists. split; [by apply mount_absent | done].
  - intros text favs Hget Hparse. eexists.
    split; [by eapply mount_movies | done].
  - apply mount_syntax_error.
Qed.

Lemma mount_outcomes_witness :
  (localStorage.getItem "favourites" ∅ = None
   ∧ ∃ p, mount ∅ = Ready p ∧ favourites p = [])
  ∧ (localStorage.getItem "favourites"
       {[ "favourites" := JSON.stringify (movies_to_json [dune; arrival]) ]}
     = Some (JSON.stringify (movies_to_json [dune; arrival]))
     ∧ JSON.parse (JSON.stringify (movies_to_json [dune; arrival]))
       = JSON.Value (movies_to_json [dune; arrival])
     ∧ ∃ p, mount {[ "favourites" := JSON.stringify (movies_to_json [dune; arrival]) ]}
            = Ready p
            ∧ favourites p = [dune; arrival])
  ∧ (localStorage.getItem "favourites" {[ "favourites" := "{oops" ]} = Some "{oops"
     ∧ "{oops" ≠ ""
     ∧ JSON.parse "{oops" = JSON.SyntaxError
     ∧ mount {[ "favourites" := "{oops" ]} = Throws).
Proof.
  split; [| split].
  - split; [reflexivity |].
    apply (proj1 (mount_outcomes ∅)). by left.
  - split; [reflexivity |]. split; [reflexivity |].
    apply (proj1 (proj2 (mount_outcomes
                           {[ "favourites"
                              := JSON.stringify (movies_to_json [dune; arrival]) ]}))
             (JSON.stringify (movies_to_json [dune; arrival])));
      reflexivity.
  - split; [reflexivity |]. split; [discriminate |]. split; [reflexivity |].
    apply (proj2 (proj2 (mount_outcomes {[ "favourites" := "{oops" ]})) "{oops");
      [reflexivity | discriminate | reflexivity].
Defined.

(** C4: for every list of favourites, writing it to the slot as the
    second effect does and mounting on that storage gives the same list
    back: the same movies in the same order.  So it is after every add and
    remove. *)
Theorem restore_after_persist p :
  (∃ restored,
     mount (storage (persist_effect p)) = Ready restored
     ∧ favourites restored = favourites p
     ∧ storage restored = storage (persist_effect p))
  ∧ (∀ o, mount (storage (apply_op p o)) = Ready (apply_op p o)).
Proof.
  assert (∀ q, mount (storage (persist_effect q)) = Ready (persist_effect q)) as Hmount.
  { intros q.
    rewrite (mount_movies _ (JSON.stringify (movies_to_json (favourites q)))
               (favourites q)).
    - unfold persist_effect, localStorage.setItem. simpl.
      by rewrite !insert_insert_eq.
    - apply lookup_insert_eq.
    - apply parse_stringify_movies. }
  split.
  - exists (persist_effect p). by rewrite Hmount.
  - intros [movie|movieId]; apply Hmount.
Qed.

End mount_claims.

(** * Further properties *)

(** ** The favourites store: how the operations compose *)
Section store_composition.
Import MovieContext.

Lemma provider_eq p q :
  favourites p = favourites q → storage p = storage q → p = q.
Proof. destruct p, q. simpl. by intros -> ->. Qed.

Lemma storage_setFavourites updater p :
  storage (setFavourites updater p)
  = <["favourites" := JSON.stringify (movies_to_json (updater (favourites p)))]>
      (storage p).
Proof. reflexivity. Qed.

Lemma setFavourites_twice f g p :
  setFavourites g (setFavourites f p) = setFavourites (g ∘ f) p.
Proof.
  apply provider_eq; [done |].
  rewrite !storage_setFavourites. simpl. by rewrite insert_insert_eq.
Qed.

Lemma setFavourites_ext f g p :
  f (favourites p) = g (favourites p) → setFavourites f p = setFavourites g p.
Proof.
  intros Heq. apply provider_eq; [done |].
  rewrite !storage_setFavourites. by rewrite Heq.
Qed.

(** X1: removing the identifier of a movie just added gives the store that
    removing it without the add gives, storage included; when the store
    did not hold the identifier the favourites are as before the add. *)
Theorem remove_after_add movie p :
  removeFromFavourites (id movie) (addToFavourites movie p)
  = removeFromFavourites (id movie) p
  ∧ (isFavourites p (id movie) = false →
     favourites (removeFromFavourites (id movie) (addToFavourites movie p))
     = favourites p).
Proof.
  assert (removeFromFavourites (id movie) (addToFavourites movie p)
          = removeFromFavourites (id movie) p) as Heq.
  { unfold removeFromFavourites, addToFavourites.
    rewrite setFavourites_twice. apply setFavourites_ext. simpl.
    rewrite filter_app, filter_cons_False, filter_nil by (intros Hne; by apply Hne).
    apply app_nil_r. }
  split; [exact Heq |].
  intros Habsent. rewrite Heq, favourites_remove.
  apply filter_absent. by apply isFavourites_false.
Qed.

Lemma remove_after_add_witness :
  isFavourites (addToFavourites arrival (empty ∅)) (id dune) = false
  ∧ favourites (removeFromFavourites (id dune)
                  (addToFavourites dune (addToFavourites arrival (empty ∅))))
    = favourites (addToFavourites arrival (empty ∅)).
Proof.
  split; [reflexivity |].
  apply (remove_after_add dune (addToFavourites arrival (empty ∅))). reflexivity.
Defined.

(** X2: two removes give the same store in either order. *)
Theorem removes_commute i j p :
  removeFromFavourites i (removeFromFavourites j p)
  = removeFromFavourites j (removeFromFavourites i p).
Proof.
  unfold removeFromFavourites. rewrite !setFavourites_twice.
  apply setFavourites_ext. simpl. rewrite !list_filter_filter.
  apply list_filter_iff. tauto.
Qed.

(** X3: a call that does not touch an identifier leaves [isFavourites] for it
    as it was, and so does any sequence of such calls. *)
Theorem untouched_membership_kept j ops p :
  Forall (λ o, ¬ affects j o) ops →
  isFavourites (run_from p ops) j = isFavourites p j.
Proof.
  intros Hall. revert p.
  induction Hall as [|o ops Ho _ IH]; intros p; [done |].
  change (run_from p (o :: ops)) with (run_from (apply_op p o) ops).
  rewrite IH. destruct o as [movie|movieId]; simpl in *.
  - rewrite isFavourites_add, bool_decide_eq_false_2 by done. apply orb_false_r.
  - rewrite isFavourites_remove, bool_decide_eq_false_2 by done. apply andb_true_r.
Qed.

Lemma untouched_membership_kept_witness :
  Forall (λ o, ¬ affects 1 o) [Add arrival; Remove 2; Remove 7]
  ∧ isFavourites
      (run_from (addToFavourites dune (empty ∅)) [Add arrival; Remove 2; Remove 7]) 1
    = isFavourites (addToFavourites dune (empty ∅)) 1.
Proof.
  assert (Forall (λ o, ¬ affects 1 o) [Add arrival; Remove 2; Remove 7]) as Hall.
  { repeat constructor; simpl; discriminate. }
  split; [exact Hall |].
  exact (untouched_membership_kept 1 [Add arrival; Remove 2; Remove 7]
           (addToFavourites dune (empty ∅)) Hall).
Defined.

(** X4: adds keep the order in which they are made: after adding the movies of
    a list one by one the favourites are the old ones followed by that
    list. *)
Theorem adds_keep_insertion_order added p :
  favourites (run_from p (Add <$> added)) = favourites p ++ added.
Proof.
  revert p. induction added as [|m added IH]; intros p.
  - by rewrite app_nil_r.
  - rewrite fmap_cons.
    change (run_from p (Add m :: (Add <$> added)))
      with (run_from (addToFavourites m p) (Add <$> added)).
    rewrite IH, favourites_add. by rewrite <- app_assoc.
Qed.

End store_composition.

(** ** The favourites store across reloads *)
Section store_sessions.
Import MovieContext.

(** A provider whose storage slot holds the text of its favourites. *)
Lemma mount_persisted q : mount (storage (persist_effect q)) = Ready (persist_effect q).
Proof.
  rewrite (mount_movies _ (JSON.stringify (movies_to_json (favourites q)))
             (favourites q)).
  - unfold persist_effect, localStorage.setItem. simpl.
    by rewrite !insert_insert_eq.
  - apply lookup_insert_eq.
  - apply parse_stringify_movies.
Qed.

Lemma mount_Ready_persisted slots p :
  mount slots = Ready p → ∃ q, p = persist_effect q.
Proof.
  unfold mount. destruct (init_effect slots) as [[v|]| |]; try done.
  - destruct (movies_of_json v); [| done]. intros [= <-]. by eexists.
  - intros [= <-]. by eexists.
Qed.

Lemma run_from_persisted ops : ∀ p,
  (∃ q, p = persist_effect q) → ∃ q, run_from p ops = persist_effect q.
Proof.
  induction ops as [|o ops IH]; intros p Hp; [done |].
  change (run_from p (o :: ops)) with (run_from (apply_op p o) ops).
  apply IH. destruct o; by eexists.
Qed.

Lemma mount_other_keys slots p key :
  mount slots = Ready p → key ≠ "favourites" →
  localStorage.getItem key (storage p) = localStorage.getItem key slots.
Proof.
  unfold mount, localStorage.getItem. intros Hmount Hkey.
  destruct (init_effect slots) as [[v|]| |]; try done.
  - destruct (movies_of_json v); [| done]. injection Hmount as <-. simpl.
    unfold localStorage.setItem. by rewrite !lookup_insert_ne.
  - injection Hmount as <-. simpl.
    unfold localStorage.setItem. by rewrite lookup_insert_ne.
Qed.

Lemma run_from_other_keys ops key : ∀ p,
  key ≠ "favourites" →
  localStorage.getItem key (storage (run_from p ops))
  = localStorage.getItem key (storage p).
Proof.
  induction ops as [|o ops IH]; intros p Hkey; [done |].
  change (run_from p (o :: ops)) with (run_from (apply_op p o) ops).
  rewrite IH by done. unfold localStorage.getItem.
  destruct o; simpl; unfold localStorage.setItem; by rewrite lookup_insert_ne.
Qed.

(** X5: favourites survive a reload: when mounting yields a store, then after
    any sequence of adds and removes, and also after none, mounting again
    on the storage that is left yields that very store. *)
Theorem reload_restores_store slots p ops :
  mount slots = Ready p →
  mount (storage (run_from p ops)) = Ready (run_from p ops).
Proof.
  intros Hmount.
  destruct (run_from_persisted ops p (mount_Ready_persisted _ _ Hmount)) as (q & ->).
  apply mount_persisted.
Qed.

Lemma reload_restores_store_witness :
  mount ∅ = Ready (persist_effect (empty ∅))
  ∧ mount (storage (run_from (persist_effect (empty ∅))
                      [Add dune; Add arrival; Remove 1]))
    = Ready (run_from (persist_effect (empty ∅)) [Add dune; Add arrival; Remove 1]).
Proof.
  split; [reflexivity |].
  apply (reload_restores_store ∅ (persist_effect (empty ∅))
           [Add dune; Add arrival; Remove 1]).
  reflexivity.
Defined.

(** X6: from mounting on, the slot ["favourites"] always holds the text of the
    whole current array, and the store never writes, nor removes, any
    other key of the storage. *)
Theorem storage_mirrors_favourites slots p ops :
  mount slots = Ready p →
  localStorage.getItem "favourites" (storage (run_from p ops))
  = Some (JSON.stringify (movies_to_json (favourites (run_from p ops))))
  ∧ ∀ key, key ≠ "favourites" →
      localStorage.getItem key (storage (run_from p ops))
      = localStorage.getItem key slots.
Proof.
  intros Hmount. split.
  - destruct (run_from_persisted ops p (mount_Ready_persisted _ _ Hmount)) as (q & ->).
    apply lookup_insert_eq.
  - intros key Hkey. rewrite run_from_other_keys by done.
    by apply mount_other_keys.
Qed.

Lemma storage_mirrors_favourites_witness :
  mount {[ "theme" := "dark" ]}
  = Ready (persist_effect (empty {[ "theme" := "dark" ]}))
  ∧ localStorage.getItem "theme"
      (storage (run_from (persist_effect (empty {[ "theme" := "dark" ]}))
                  [Add dune; Remove 1]))
    = localStorage.getItem "theme" {[ "theme" := "dark" ]}.
Proof.
  split; [reflexivity |].
  apply (storage_mirrors_favourites {[ "theme" := "dark" ]}
           (persist_effect (empty {[ "theme" := "dark" ]})) [Add dune; Remove 1]).
  - reflexivity.
  - discriminate.
Defined.

(** X7: the stored text determines the favourites: two lists of movies with
    the same JSON text are the same list. *)
Theorem stored_text_determines_favourites l1 l2 :
  JSON.stringify (movies_to_json l1) = JSON.stringify (movies_to_json l2) →
  l1 = l2.
Proof.
  intros Heq.
  assert (JSON.Value (movies_to_json l1) = JSON.Value (movies_to_json l2)) as Hv.
  { rewrite <- !parse_stringify_movies. by rewrite Heq. }
  apply (f_equal (λ r, match r with
                       | JSON.Value v => movies_of_json v
                       | _ => None
                       end)) in Hv.
  rewrite !movies_of_to_json in Hv. by injection Hv.
Qed.

Lemma stored_text_determines_favourites_witness :
  JSON.stringify (movies_to_json [dune; arrival])
  = JSON.stringify (movies_to_json [mkMovie 1 "Dune" None; arrival])
  ∧ [dune; arrival] = [mkMovie 1 "Dune" None; arrival].
Proof.
  split; [reflexivity |].
  apply (stored_text_determines_favourites [dune; arrival]
           [mkMovie 1 "Dune" None; arrival]).
  reflexivity.
Defined.

End store_sessions.

(** ** The browse view: submissions *)
Section submissions.
Import Home.

(** X8: a submission starts a search exactly when the query is not blank and
    no call is in flight; the search is for the query as typed, white
    space included, and the only state it changes on the spot is the
    loading flag. *)
Theorem submit_starts_search st :
  (call_of (handleSearch st) = None ↔ blank (searchQuery st) ∨ loading st = true)
  ∧ (¬ blank (searchQuery st) → loading st = false →
     call_of (handleSearch st) = Some (searchMovies (searchQuery st))
     ∧ state_of (handleSearch st) = setLoading true st).
Proof.
  unfold handleSearch.
  destruct (JS.truthy (JS.trim (searchQuery st))) eqn:Htrim; simpl.
  - assert (¬ blank (searchQuery st)) as Hnb.
    { intros Hb. apply trim_blank in Hb. congruence. }
    destruct (loading st); simpl.
    + split; [| done]. split; [by right | done].
    + split; [| done]. split; [done | intros [?|?]; done].
  - apply trim_blank in Htrim. split; [| done]. split; [by left | done].
Qed.

Lemma submit_starts_search_witness :
  ¬ blank " dune "
  ∧ loading (mkState " dune " [arrival] None false) = false
  ∧ call_of (handleSearch (mkState " dune " [arrival] None false))
    = Some (searchMovies " dune ").
Proof.
  assert (¬ blank " dune ") as Hnb.
  { intros Hb. apply trim_blank in Hb. discriminate. }
  split; [exact Hnb |]. split; [reflexivity |].
  apply (proj2 (submit_starts_search (mkState " dune " [arrival] None false)));
    [exact Hnb | reflexivity].
Defined.

(** X9: whatever the state, a second submission right after a first one
    issues no call and changes nothing. *)
Theorem second_submit_is_ignored st :
  handleSearch (state_of (handleSearch st)) = Returned (state_of (handleSearch st)).
Proof.
  unfold handleSearch at 2 3.
  destruct (negb (JS.truthy (JS.trim (searchQuery st)))) eqn:Hblank.
  - simpl. unfold handleSearch. by rewrite Hblank.
  - destruct (loading st) eqn:Hbusy.
    + simpl. unfold handleSearch. by rewrite Hblank, Hbusy.
    + simpl. unfold handleSearch. simpl. by rewrite Hblank.
Qed.

End submissions.

(** ** The browse view: what is displayed *)
Section narrowing.
Import Home.
Local Arguments String.append : simpl nomatch.

Lemma toLowerCase_char_idempotent c :
  JS.toLowerCase_char (JS.toLowerCase_char c) = JS.toLowerCase_char c.
Proof. destruct c as [[] [] [] [] [] [] [] []]; reflexivity. Qed.

Lemma toLowerCase_idempotent s : JS.toLowerCase (JS.toLowerCase s) = JS.toLowerCase s.
Proof.
  induction s as [|c s IH]; simpl; [done |].
  by rewrite toLowerCase_char_idempotent, IH.
Qed.

Lemma includes_trans s t u :
  JS.includes s t = true → JS.includes t u = true → JS.includes s u = true.
Proof.
  rewrite !includes_spec. intros (a & b & ->) (c & d & ->).
  exists (a ++ c)%string, (d ++ b)%string. by rewrite !append_assoc.
Qed.

Lemma cards_sublist (keep keep' : Movie → bool) l :
  (∀ m, keep' m = true → keep m = true) →
  omap (λ m, if keep' m then Some m else None) l
  `sublist_of` omap (λ m, if keep m then Some m else None) l.
Proof.
  intros Himp. induction l as [|m l IH]; [done |].
  change (omap ?f (m :: l))
    with (match f m with Some y => y :: omap f l | None => omap f l end).
  cbv beta. destruct (keep' m) eqn:Hk'.
  - rewrite (Himp m Hk'). by apply sublist_skip.
  - destruct (keep m); [by apply sublist_cons | done].
Qed.

(** X10: refining the query never brings a card back: when the lower case
    of the old query occurs in the lower case of the new one, the movies
    displayed for the new query are among those displayed for the old
    one, in the same order. *)
Theorem longer_query_narrows st query query' :
  occurs_lowered query query' →
  displayed (setSearchQuery query' st) `sublist_of` displayed (setSearchQuery query st).
Proof.
  intros Hocc. apply includes_lowered in Hocc.
  unfold displayed, render. simpl. destruct (loading st); [done |].
  apply (cards_sublist
           (λ m, JS.includes (JS.toLowerCase (title m)) (JS.toLowerCase query))
           (λ m, JS.includes (JS.toLowerCase (title m)) (JS.toLowerCase query'))).
  intros m Hm. by eapply includes_trans.
Qed.

Lemma longer_query_narrows_witness :
  occurs_lowered "UN" "dune"
  ∧ displayed (setSearchQuery "dune" (mkState "" [dune; arrival] None false))
    `sublist_of` displayed (setSearchQuery "UN" (mkState "" [dune; arrival] None false)).
Proof.
  assert (occurs_lowered "UN" "dune") as Hocc by (by exists "d", "e").
  split; [exact Hocc |].
  exact (longer_query_narrows (mkState "" [dune; arrival] None false) "UN" "dune" Hocc).
Defined.

(** X11: the case of the letters typed does not matter: a query and its lower
    case display the same movies. *)
Theorem query_case_is_ignored st query :
  displayed (setSearchQuery (JS.toLowerCase query) st)
  = displayed (setSearchQuery query st).
Proof.
  unfold displayed, render. simpl. by rewrite toLowerCase_idempotent.
Qed.

End narrowing.

(** ** The browse view over its life *)
Section session_facts.
Import Home Session.

Lemma after_snoc events e : after (events ++ [e]) = step (after events) e.
Proof. unfold after. by rewrite foldl_app. Qed.

Lemma loadPopularMovies_settles_well st resume call st' :
  loadPopularMovies st = Await st' call resume → settles_well resume.
Proof.
  intros [= _ _ <-] outcome now. destruct outcome as [result|err]; simpl.
  - split_and!; [done | done | done |]. right. by exists result.
  - split_and!; [done | done | | by left]. intros _. right. by left.
Qed.

Lemma handleSearch_settles_well st resume call st' :
  handleSearch st = Await st' call resume → settles_well resume.
Proof.
  unfold handleSearch.
  destruct (negb _); [done |]. destruct (loading st); [done |].
  intros [= _ _ <-] outcome now. destruct outcome as [result|err]; simpl.
  - split_and!; [done | done | | ]; [intros _; by left | right; by exists result].
  - split_and!; [done | done | | by left]. intros _. right. by right.
Qed.

Lemma handleSearch_Returned st st' : handleSearch st = Returned st' → st' = st.
Proof.
  unfold handleSearch. destruct (negb _); [by intros [= ->] |].
  destruct (loading st); [by intros [= ->] | done].
Qed.

Lemma handleSearch_Await st st' call resume :
  handleSearch st = Await st' call resume → st' = setLoading true st.
Proof.
  unfold handleSearch. destruct (negb _); [done |].
  destruct (loading st); [done |]. by intros [= <- _ _].
Qed.

Lemma coherent_mounted : coherent mounted.
Proof.
  split; [by left |]. right. eexists _, _. split_and!; [done | done |].
  by eapply (loadPopularMovies_settles_well initial).
Qed.

Lemma coherent_step s e : coherent s → coherent (step s e).
Proof.
  intros [Herr Hflight]. destruct e as [text| |n outcome]; simpl.
  - split; [done |]. destruct Hflight as [[Hnil Hidle] | (call & resume & Hone & Hbusy & Hwell)].
    + by left.
    + right. by exists call, resume.
  - destruct Hflight as [[Hnil Hidle] | (call & resume & Hone & Hbusy & Hwell)].
    + destruct (handleSearch (ui s)) as [st|st call resume] eqn:Hsubmit; simpl.
      * apply handleSearch_Returned in Hsubmit as ->.
        rewrite Hnil. split; [done | by left].
      * pose proof (handleSearch_settles_well _ _ _ _ Hsubmit) as Hwell.
        apply handleSearch_Await in Hsubmit as ->.
        rewrite Hnil. split; [done |]. right. by exists call, resume.
    + assert (handleSearch (ui s) = Returned (ui s)) as ->.
      { unfold handleSearch. rewrite Hbusy. by destruct (negb _). }
      simpl. rewrite app_nil_r. split; [done |]. right. by exists call, resume.
  - destruct Hflight as [[Hnil Hidle] | (call & resume & Hone & Hbusy & Hwell)].
    + rewrite Hnil. simpl. split; [done | by left].
    + rewrite Hone. destruct n as [|n]; simpl.
      * destruct (Hwell outcome (ui s)) as (Hidle & _ & Hknown & _).
        split; [by apply Hknown | by left].
      * split; [done |]. right. by exists call, resume.
Qed.

Lemma coherent_after events : coherent (after events).
Proof.
  induction events as [|e events IH] using rev_ind; [apply coherent_mounted |].
  rewrite after_snoc. by apply coherent_step.
Qed.

End session_facts.

Section session_properties.
Import Home Session.

(** X12: whatever the user does, at most one call is in flight at any time, and
    the loading flag is true exactly while one is. *)
Theorem one_call_at_a_time events :
  (length (in_flight (after events)) ≤ 1)%nat
  ∧ (loading (ui (after events)) = true ↔ in_flight (after events) ≠ []).
Proof.
  destruct (coherent_after events)
    as [_ [[-> ->] | (call & resume & -> & -> & _)]]; simpl.
  - split; [lia | done].
  - split; [lia | done].
Qed.

(** X13: the error cell only ever holds [null] or one of the two messages of
    the component. *)
Theorem error_is_one_of_three events : known_error (error (ui (after events))).
Proof. apply coherent_after. Qed.

(** X14: the result list changes only when a call resolves, and then to the
    result of that call as a whole: typing, submitting and a rejected call
    leave it as it is. *)
Theorem result_list_replaced_on_success events e :
  movies (ui (step (after events) e)) = movies (ui (after events))
  ∨ ∃ n result,
      e = CallSettles n (Resolved result)
      ∧ movies (ui (step (after events) e)) = result.
Proof.
  destruct (coherent_after events) as [_ Hflight].
  destruct e as [text| |n outcome]; simpl.
  - by left.
  - left. unfold handleSearch.
    destruct (negb _); [done |]. by destruct (loading _).
  - destruct Hflight as [[-> _] | (call & resume & -> & _ & Hwell)]; [by left |].
    destruct n as [|n]; simpl; [| by left].
    destruct (Hwell outcome (ui (after events)))
      as (_ & _ & _ & [Hsame | (result & -> & Hnew)]); [by left |].
    right. by exists 0%nat, result.
Qed.

(** X15: the search box holds what was typed last, the empty string before any
    typing: no submission and no call rewrites it. *)
Theorem query_is_last_typed events :
  searchQuery (ui (after events)) = default "" (last (typed_texts events)).
Proof.
  induction events as [|e events IH] using rev_ind; [done |].
  rewrite after_snoc. unfold typed_texts in *. rewrite omap_app.
  destruct (coherent_after events) as [_ Hflight].
  destruct e as [text| |n outcome]; simpl.
  - by rewrite last_snoc.
  - rewrite app_nil_r, <- IH. unfold handleSearch.
    destruct (negb _); [done |]. by destruct (loading _).
  - rewrite app_nil_r, <- IH.
    destruct Hflight as [[-> _] | (call & resume & -> & _ & Hwell)]; [done |].
    destruct n as [|n]; simpl; [| done].
    by destruct (Hwell outcome (ui (after events))) as (_ & -> & _).
Qed.

(** X16: submissions made before the popular movies have arrived start no
    search: as long as no call has settled, the one call in flight is the
    one for the popular movies, and when it resolves its result is the
    list, with no error and nothing loading. *)
Theorem first_load_is_not_overtaken events result :
  Forall (λ e, ¬ is_settle e) events →
  fst <$> in_flight (after events) = [getPopularMovies]
  ∧ movies (ui (after (events ++ [CallSettles 0 (Resolved result)]))) = result
  ∧ error (ui (after (events ++ [CallSettles 0 (Resolved result)]))) = None
  ∧ loading (ui (after (events ++ [CallSettles 0 (Resolved result)]))) = false
  ∧ in_flight (after (events ++ [CallSettles 0 (Resolved result)])) = [].
Proof.
  intros Hall.
  assert (in_flight (after events) = pending (loadPopularMovies initial)
          ∧ loading (ui (after events)) = true
          ∧ error (ui (after events)) = None) as (Hflight & Hbusy & Herr).
  { induction events as [|e events IH] using rev_ind; [done |].
    apply Forall_app in Hall as [Hall He]. rewrite Forall_singleton in He.
    destruct (IH Hall) as (Hflight & Hbusy & Herr). rewrite after_snoc.
    destruct e as [text| |n outcome]; simpl; [done | | exfalso; by apply He].
    assert (handleSearch (ui (after events)) = Returned (ui (after events))) as ->.
    { unfold handleSearch. rewrite Hbusy. by destruct (negb _). }
    simpl. by rewrite app_nil_r. }
  rewrite after_snoc. simpl. rewrite Hflight. simpl. by rewrite Herr.
Qed.

Lemma first_load_is_not_overtaken_witness :
  Forall (λ e, ¬ is_settle e) [Typed "dune"; Submitted; Typed "du"]
  ∧ movies (ui (after ([Typed "dune"; Submitted; Typed "du"]
                         ++ [CallSettles 0 (Resolved [dune; arrival])])))
    = [dune; arrival].
Proof.
  assert (Forall (λ e, ¬ is_settle e) [Typed "dune"; Submitted; Typed "du"]) as Hall.
  { repeat constructor; simpl; tauto. }
  split; [exact Hall |].
  exact (proj1 (proj2 (first_load_is_not_overtaken
                         [Typed "dune"; Submitted; Typed "du"] [dune; arrival] Hall))).
Defined.

End session_properties.
